(** * Faedor: a shallow embedding of the grain runtime sketches

    The TypeScript sources under [packages/orleans/src/lib] and the actor
    helper are embedded as Rocq functions.  Objects with mutable fields become
    records that are threaded explicitly; a method that invokes callbacks
    returns, next to the new object, the log of what it invoked. *)

From Stdlib Require Import ZArith Lia Bool Ascii.
From stdpp Require Import gmap strings list sorting.

(* ===================================================================== *)
(** ** utils.ts: [CancellationToken] *)
(* ===================================================================== *)

Module Utils.

(** A callback [() => void] is a function object.  Only its identity and the
    fact that it has been called are observable from the token. *)
Definition Callback := nat.

(** [private isCanceled = false; private onCancelCallbacks = []] *)
Record CancellationToken := mkToken {
  isCanceled : bool;
  onCancelCallbacks : list Callback
}.

Definition newToken : CancellationToken :=
  {| isCanceled := false; onCancelCallbacks := [] |}.

(** [cancel()]: sets the flag, then [forEach] calls every element of the
    array in index order.  The second component is the sequence of calls. *)
Definition cancel (t : CancellationToken) : CancellationToken * list Callback :=
  ({| isCanceled := true; onCancelCallbacks := onCancelCallbacks t |},
   onCancelCallbacks t).

Definition isCancellationRequested (t : CancellationToken) : bool :=
  isCanceled t.

(** [register(callback)]: [push] only. *)
Definition register (cb : Callback) (t : CancellationToken) : CancellationToken :=
  {| isCanceled := isCanceled t;
     onCancelCallbacks := onCancelCallbacks t ++ [cb] |}.

(** The public interface as a call alphabet, and a client that performs a
    sequence of calls on one token.  [run] returns the token and the
    callbacks invoked so far, oldest first. *)
Inductive Call :=
| Cancel
| Register (cb : Callback)
| IsCancellationRequested.

Definition step (c : Call) (t : CancellationToken) : CancellationToken * list Callback :=
  match c with
  | Cancel => cancel t
  | Register cb => (register cb t, [])
  | IsCancellationRequested => (t, [])
  end.

Fixpoint run (cs : list Call) (t : CancellationToken) : CancellationToken * list Callback :=
  match cs with
  | [] => (t, [])
  | c :: cs' =>
      let '(t1, inv1) := step c t in
      let '(t2, inv2) := run cs' t1 in
      (t2, inv1 ++ inv2)
  end.

Definition isCancel (c : Call) : bool :=
  match c with Cancel => true | _ => false end.

(** Callbacks passed to [register] by a call sequence, in call order. *)
Fixpoint registered (cs : list Call) : list Callback :=
  match cs with
  | [] => []
  | Register cb :: cs' => cb :: registered cs'
  | _ :: cs' => registered cs'
  end.

(** The sentence "a callback registered after the token was already
    cancelled is never invoked", over every client. *)
Definition late_registration_never_invoked : Prop :=
  forall (pre post : list Call) (cb : Callback),
    isCancellationRequested (run pre newToken).1 = true ->
    cb ∉ registered pre ->
    cb ∉ (run post (register cb (run pre newToken).1)).2.

(** *** Facts *)

Lemma run_callbacks cs t :
  onCancelCallbacks (run cs t).1 = onCancelCallbacks t ++ registered cs.
Proof.
  revert t. induction cs as [|c cs IH]; intros t; simpl.
  - now rewrite app_nil_r.
  - destruct c; simpl.
    + specialize (IH (cancel t).1). simpl in IH.
      destruct (run cs _) as [t2 i2]; simpl in *. exact IH.
    + specialize (IH (register cb t)).
      destruct (run cs _) as [t2 i2]; simpl in *.
      rewrite IH. now rewrite <- app_assoc.
    + specialize (IH t). destruct (run cs t) as [t2 i2]; simpl in *. exact IH.
Qed.

Lemma run_flag_monotone cs t :
  isCanceled t = true -> isCanceled (run cs t).1 = true.
Proof.
  revert t. induction cs as [|c cs IH]; intros t Ht; simpl; [exact Ht|].
  destruct c; simpl.
  - specialize (IH (cancel t).1 eq_refl). now destruct (run cs _).
  - specialize (IH (register cb t) Ht). now destruct (run cs _).
  - specialize (IH t Ht). now destruct (run cs t).
Qed.

Lemma run_no_cancel cs t :
  forallb (fun c => negb (isCancel c)) cs = true ->
  isCanceled (run cs t).1 = isCanceled t /\ (run cs t).2 = [].
Proof.
  revert t. induction cs as [|c cs IH]; intros t H; simpl in *; [easy|].
  apply andb_prop in H as [Hc Hcs].
  destruct c; simpl in *; try discriminate.
  - destruct (IH (register cb t) Hcs) as [E1 E2].
    destruct (run cs _) as [t2 i2]; simpl in *. now subst.
  - destruct (IH t Hcs) as [E1 E2].
    destruct (run cs t) as [t2 i2]; simpl in *. now subst.
Qed.

(** C10 (as stated, refuted): on a token that was cancelled, callback 7 is
    registered afterwards and a second [cancel()] invokes it. *)
Lemma late_registration_invoked_by_second_cancel :
  ~ late_registration_never_invoked.
Proof.
  intros H.
  specialize (H [Cancel] [Cancel] 7%nat eq_refl).
  apply H; simpl.
  - apply not_elem_of_nil.
  - apply list_elem_of_here.
Qed.

(** C10 (amended): a token nobody cancelled reports [false]; once [cancel()]
    ran it reports [true] after any further calls; each [cancel()] invokes
    exactly the callbacks registered up to that call, in registration
    order; [register] and [isCancellationRequested] invoke nothing, so a
    callback registered on a cancelled token stays silent until [cancel()]
    is called again, and that later call does invoke it. *)
Theorem cancellation_token_behaviour :
  (forall cs, forallb (fun c => negb (isCancel c)) cs = true ->
     isCancellationRequested (run cs newToken).1 = false) /\
  (forall t cs, isCancellationRequested (run cs (cancel t).1).1 = true) /\
  (forall cs, (cancel (run cs newToken).1).2 = registered cs) /\
  (forall t cb cs, forallb (fun c => negb (isCancel c)) cs = true ->
     (run cs (register cb (cancel t).1)).2 = []) /\
  (forall t cb, (cancel (register cb (cancel t).1)).2 = onCancelCallbacks t ++ [cb]).
Proof.
  repeat split.
  - intros cs H. unfold isCancellationRequested.
    now destruct (run_no_cancel cs newToken H) as [-> _].
  - intros t cs. unfold isCancellationRequested. now apply run_flag_monotone.
  - intros cs. unfold cancel; simpl. now rewrite run_callbacks.
  - intros t cb cs H. now destruct (run_no_cancel cs (register cb (cancel t).1) H).
Qed.

Lemma cancellation_token_behaviour_witness :
  isCancellationRequested (run [Register 1; IsCancellationRequested; Register 2] newToken).1 = false /\
  (run [Register 3; IsCancellationRequested] (register 9 (cancel newToken).1)).2 = [].
Proof.
  destruct cancellation_token_behaviour as (H1 & _ & _ & H4 & _).
  split.
  - apply (H1 [Register 1; IsCancellationRequested; Register 2]). reflexivity.
  - apply (H4 newToken 9%nat [Register 3; IsCancellationRequested]). reflexivity.
Defined.

(** *** Repeated cancellation *)

Definition occurrences (cb : Callback) (l : list Callback) : nat :=
  length (List.filter (Nat.eqb cb) l).

Definition cancels (cs : list Call) : nat :=
  length (List.filter isCancel cs).

Lemma occurrences_app cb l1 l2 :
  occurrences cb (l1 ++ l2) = occurrences cb l1 + occurrences cb l2.
Proof. unfold occurrences. now rewrite List.filter_app, length_app. Qed.

Lemma occurrences_other cb cb' : cb <> cb' -> occurrences cb [cb'] = 0.
Proof.
  intros H. unfold occurrences. simpl.
  now destruct (Nat.eqb_spec cb cb'); [congruence|].
Qed.

(** X1: [cancel()] is not guarded against being called again: every call
    invokes every registration anew.  A callback that the client does not
    register during the calls [cs] is invoked, in total, once per [cancel()]
    call for each registration it already had (twice per call when it was
    registered twice). *)
Theorem every_cancel_invokes_every_registration cs t cb :
  cb ∉ registered cs ->
  occurrences cb (run cs t).2 = cancels cs * occurrences cb (onCancelCallbacks t).
Proof.
  revert t. induction cs as [|c cs IH]; intros t Hcb; [reflexivity|].
  destruct c as [|cb'|]; cbn [run step registered] in *.
  - specialize (IH (cancel t).1 Hcb). unfold cancel in *. cbn [fst snd] in *.
    destruct (run cs _) as [t2 i2]. cbn [snd onCancelCallbacks] in *.
    rewrite occurrences_app, IH. unfold cancels. simpl. lia.
  - apply not_elem_of_cons in Hcb as [Hne Hcb].
    specialize (IH (register cb' t) Hcb).
    destruct (run cs (register cb' t)) as [t2 i2]. cbn [snd app] in *.
    rewrite IH. unfold register; cbn [onCancelCallbacks].
    rewrite occurrences_app, (occurrences_other cb cb' Hne).
    unfold cancels. simpl. lia.
  - specialize (IH t Hcb). destruct (run cs t) as [t2 i2]. cbn [snd app] in *.
    rewrite IH. unfold cancels. simpl. lia.
Qed.

Lemma every_cancel_invokes_every_registration_witness :
  occurrences 5 (run [Cancel; Register 8; Cancel; IsCancellationRequested; Cancel]
                     (register 5 (register 5 newToken))).2 = 6.
Proof.
  apply (every_cancel_invokes_every_registration
           [Cancel; Register 8; Cancel; IsCancellationRequested; Cancel]
           (register 5 (register 5 newToken)) 5).
  intros H. repeat (apply elem_of_cons in H as [H|H]; [discriminate|]).
  now apply elem_of_nil in H.
Defined.

End Utils.

(* ===================================================================== *)
(** ** actor.ts: [Actor], the message-driven state holder with history *)
(* ===================================================================== *)

Module ActorModel.

Section Actor.

(** [State], [Message extends BaseMessage] and Immer's [Patch]. *)
Context {State Message Patch : Type}.

(** [message.type] *)
Variable msgType : Message -> string.

(** Immer computes patches structurally from the base and the result:
    [diff a b] stands for the patches that lead from [a] to [b]. *)
Variable diff : State -> State -> list Patch.

(** The two abstract methods of the class.  The recipe handed to Immer
    mutates a draft; its net effect is a function on states. *)
Variable isMessageTypeValid : string -> bool.
Variable handleMessage : State -> Message -> State.

(** A subscriber is a function object [(state) => void].  What it can do
    to the actor it closes over is to send it messages while it runs;
    [sub_run s] lists the messages a call with argument [s] sends. *)
Record Subscriber := mkSubscriber {
  sub_id : nat;
  sub_run : State -> list Message
}.

Record StateChange := mkStateChange {
  sc_state : State;
  sc_inversePatches : list Patch
}.

Record History := mkHistory {
  past : list StateChange;
  future : list StateChange
}.

Record Actor := mkActor {
  id : string;
  state : State;
  subscribers : list Subscriber;
  history : History
}.

(** [constructor(id, initialState)] *)
Definition newActor (i : string) (initialState : State) : Actor :=
  {| id := i; state := initialState; subscribers := [];
     history := {| past := []; future := [] |} |}.

(** [subscribe(callback)]: [push]. *)
Definition subscribe (cb : Subscriber) (a : Actor) : Actor :=
  {| id := id a; state := state a;
     subscribers := subscribers a ++ [cb]; history := history a |}.

(** What an observer of the actor sees happen, in order. *)
Inductive Event :=
| Sent (m : Message)               (* sendMessage entered *)
| Warned (ty : string)             (* console.warn *)
| TurnBegin (m : Message)          (* processMessage entered *)
| Called (sub : nat) (s : State)   (* a subscriber invoked with this.state *)
| TurnEnd (m : Message).           (* processMessage returned *)

(** A method body: it may not return within the available call depth
    ([None]); otherwise it leaves a new actor and a log. *)
Definition Run := Actor -> option (Actor * list Event).

(** [Array.prototype.forEach] with an effectful body. *)
Fixpoint forEach {X : Type} (body : X -> Run) (xs : list X) : Run :=
  fun a =>
    match xs with
    | [] => Some (a, [])
    | x :: xs' =>
        match body x a with
        | None => None
        | Some (a1, e1) =>
            match forEach body xs' a1 with
            | None => None
            | Some (a2, e2) => Some (a2, e1 ++ e2)
            end
        end
    end.

(** [produceWithPatches(base, recipe)] returns
    [[nextState, patches, inversePatches]]. *)
Definition produceWithPatches (base : State) (recipe : State -> State)
  : State * list Patch * list Patch :=
  let next := recipe base in (next, diff base next, diff next base).

(** [notifySubscribers()]: each callback receives [this.state] as it is
    when the callback is reached; [send] is the actor's own
    [sendMessage], through which a callback re-enters. *)
Definition notifySubscribers (send : Message -> Run) : Run :=
  fun a =>
    forEach
      (fun cb a' =>
         match forEach send (sub_run cb (state a')) a' with
         | None => None
         | Some (a'', ev) => Some (a'', Called (sub_id cb) (state a') :: ev)
         end)
      (subscribers a) a.

(** The three assignments in the middle of [processMessage]:
    [this.state = newState;
     this.history.past.push({ state: this.state, inversePatches });
     this.history.future = [];] *)
Definition recordChange (newState : State) (inversePatches : list Patch)
           (a : Actor) : Actor :=
  {| id := id a; state := newState; subscribers := subscribers a;
     history :=
       {| past := past (history a) ++
                  [{| sc_state := newState;
                      sc_inversePatches := inversePatches |}];
          future := [] |} |}.

(** [processMessage(message)] *)
Definition processMessage (send : Message -> Run) (m : Message) : Run :=
  fun a =>
    let '(newState, _, inversePatches) :=
      produceWithPatches (state a) (fun draft => handleMessage draft m) in
    match notifySubscribers send (recordChange newState inversePatches a) with
    | None => None
    | Some (a2, ev) => Some (a2, TurnBegin m :: ev ++ [TurnEnd m])
    end.

(** [sendMessage(message)].  [depth] is the call depth still available
    for re-entrant sends. *)
Fixpoint sendMessage (depth : nat) (m : Message) : Run :=
  fun a =>
    match depth with
    | O => None
    | S depth' =>
        if negb (isMessageTypeValid (msgType m))
        then Some (a, [Sent m; Warned (msgType m)])
        else
          match processMessage (sendMessage depth') m a with
          | None => None
          | Some (a', ev) => Some (a', Sent m :: ev)
          end
    end.

(** A client that sends the messages one after the other, each call made
    after the previous one returned. *)
Definition sendAll (depth : nat) (ms : list Message) : Run :=
  forEach (sendMessage depth) ms.

(** No subscriber sends to the actor from inside its callback. *)
Definition passive (a : Actor) : Prop :=
  Forall (fun cb => forall s, sub_run cb s = []) (subscribers a).

Definition validMessages (ms : list Message) : list Message :=
  List.filter (fun m => isMessageTypeValid (msgType m)) ms.

(** "If A is enqueued before B then A completes before B begins", read
    on a log: whenever [A] was sent, [B] was sent later, and [B]'s turn
    begins, [A]'s turn has ended in between. *)
Definition completes_before (tr : list Event) : Prop :=
  forall A B pre mid post,
    isMessageTypeValid (msgType A) = true ->
    tr = pre ++ Sent A :: mid ++ TurnBegin B :: post ->
    Sent B ∈ mid ->
    TurnEnd A ∈ mid.

(** "The depth of the retained history never exceeds a fixed bound",
    for the actor [a0] under every sequence of messages. *)
Definition history_bounded (a0 : Actor) : Prop :=
  exists bound : nat,
    forall depth ms a' tr,
      sendAll depth ms a0 = Some (a', tr) ->
      length (past (history a')) + length (future (history a')) <= bound.


(** *** The run of a client against passive subscribers, as a function *)

Definition commit (m : Message) (a : Actor) : Actor :=
  let next := handleMessage (state a) m in
  recordChange next (diff next (state a)) a.

Definition notifications (a : Actor) : list Event :=
  map (fun cb => Called (sub_id cb) (state a)) (subscribers a).

Fixpoint quietRun (ms : list Message) (a : Actor) : Actor * list Event :=
  match ms with
  | [] => (a, [])
  | m :: ms' =>
      if isMessageTypeValid (msgType m)
      then
        let a1 := commit m a in
        let '(a2, tr) := quietRun ms' a1 in
        (a2, (Sent m :: TurnBegin m :: notifications a1 ++ [TurnEnd m]) ++ tr)
      else
        let '(a2, tr) := quietRun ms' a in
        (a2, [Sent m; Warned (msgType m)] ++ tr)
  end.

(** The history entries that a sequence of accepted messages leaves. *)
Fixpoint changes (s : State) (ms : list Message) : list StateChange :=
  match ms with
  | [] => []
  | m :: ms' =>
      let s' := handleMessage s m in
      {| sc_state := s'; sc_inversePatches := diff s' s |} :: changes s' ms'
  end.

Definition isCalled (e : Event) : Prop :=
  match e with Called _ _ => True | _ => False end.

(** Logs made of complete blocks: a rejected send, or a whole turn. *)
Inductive serial_trace : list Event -> Prop :=
| serial_nil : serial_trace []
| serial_warn m tr :
    isMessageTypeValid (msgType m) = false ->
    serial_trace tr ->
    serial_trace (Sent m :: Warned (msgType m) :: tr)
| serial_turn m calls tr :
    Forall isCalled calls ->
    serial_trace tr ->
    serial_trace (Sent m :: TurnBegin m :: calls ++ TurnEnd m :: tr).

Lemma forEach_passive (send : Message -> Run) subs a0 :
  Forall (fun cb => forall s, sub_run cb s = []) subs ->
  forEach
    (fun cb a' =>
       match forEach send (sub_run cb (state a')) a' with
       | None => None
       | Some (a'', ev) => Some (a'', Called (sub_id cb) (state a') :: ev)
       end) subs a0
  = Some (a0, map (fun cb => Called (sub_id cb) (state a0)) subs).
Proof.
  induction 1 as [|cb subs Hcb _ IH]; simpl; [reflexivity|].
  rewrite Hcb. simpl. rewrite IH. reflexivity.
Qed.

Lemma notifySubscribers_passive send a :
  passive a -> notifySubscribers send a = Some (a, notifications a).
Proof. intros H. unfold notifySubscribers. now apply forEach_passive. Qed.

Lemma passive_commit m a : passive a -> passive (commit m a).
Proof. intros H. exact H. Qed.

Lemma sendMessage_passive depth m a :
  passive a ->
  sendMessage (S depth) m a =
  if isMessageTypeValid (msgType m)
  then Some (commit m a,
             Sent m :: TurnBegin m :: notifications (commit m a) ++ [TurnEnd m])
  else Some (a, [Sent m; Warned (msgType m)]).
Proof.
  intros H. simpl. destruct (isMessageTypeValid (msgType m)); simpl; [|reflexivity].
  unfold processMessage, produceWithPatches.
  rewrite notifySubscribers_passive by exact H. reflexivity.
Qed.

Lemma sendAll_passive depth ms a :
  passive a -> sendAll (S depth) ms a = Some (quietRun ms a).
Proof.
  revert a. induction ms as [|m ms IH]; intros a H; [reflexivity|].
  unfold sendAll in *. cbn [forEach].
  rewrite sendMessage_passive by exact H.
  cbn [quietRun]. destruct (isMessageTypeValid (msgType m)).
  - rewrite (IH (commit m a)) by now apply passive_commit.
    now destruct (quietRun ms (commit m a)).
  - rewrite (IH a H). now destruct (quietRun ms a).
Qed.

Lemma quietRun_serial ms a : serial_trace (quietRun ms a).2.
Proof.
  revert a. induction ms as [|m ms IH]; intros a; simpl; [constructor|].
  destruct (isMessageTypeValid (msgType m)) eqn:Hv.
  - specialize (IH (commit m a)). destruct (quietRun ms (commit m a)) as [a2 tr].
    simpl in *. rewrite <- app_assoc. simpl.
    apply serial_turn; [|exact IH].
    unfold notifications. apply Forall_forall. intros e He.
    apply list_elem_of_In, in_map_iff in He as (cb & <- & _). exact I.
  - specialize (IH a). destruct (quietRun ms a) as [a2 tr]. simpl in *.
    now apply serial_warn.
Qed.

Lemma quietRun_past ms a :
  past (history (quietRun ms a).1) =
  past (history a) ++ changes (state a) (validMessages ms).
Proof.
  revert a. induction ms as [|m ms IH]; intros a; simpl.
  - now rewrite app_nil_r.
  - destruct (isMessageTypeValid (msgType m)) eqn:Hv.
    + specialize (IH (commit m a)). destruct (quietRun ms (commit m a)) as [a2 tr].
      simpl in *. rewrite IH. now rewrite <- app_assoc.
    + specialize (IH a). now destruct (quietRun ms a) as [a2 tr].
Qed.

Lemma length_changes s ms : length (changes s ms) = length ms.
Proof. revert s. induction ms as [|m ms IH]; intros s; simpl; [|rewrite IH]; reflexivity. Qed.

Lemma called_no_sent calls B : Forall isCalled calls -> Sent B ∉ calls.
Proof.
  intros H Hin. rewrite Forall_forall in H. exact (H _ Hin).
Qed.

Lemma serial_completes tr : serial_trace tr -> completes_before tr.
Proof.
  induction 1 as [|m tr Hm _ IH|m calls tr Hc _ IH];
    intros A B pre mid post HA E HB.
  - destruct pre; discriminate.
  - destruct pre as [|e pre]; simpl in E.
    + injection E as -> _. congruence.
    + injection E as _ E. destruct pre as [|e' pre]; simpl in E; [discriminate|].
      injection E as _ E. eapply IH; eauto.
  - destruct pre as [|e pre]; simpl in E.
    + (* the block is A's own turn *)
      injection E as -> E.
      change ((TurnBegin A :: calls) ++ TurnEnd A :: tr
              = mid ++ TurnBegin B :: post) in E.
      apply app_eq_app in E as [l [[E1 E2]|[E1 E2]]].
      * exfalso.
        assert (Hin : Sent B ∈ TurnBegin A :: calls)
          by (rewrite E1; apply elem_of_app; now left).
        apply elem_of_cons in Hin as [Hin|Hin]; [discriminate|].
        exact (called_no_sent _ _ Hc Hin).
      * destruct l as [|e0 l]; simpl in E2; [discriminate|].
        injection E2 as <- _. rewrite E1.
        apply elem_of_app. right. apply list_elem_of_here.
    + injection E as _ E.
      change ((TurnBegin m :: calls) ++ TurnEnd m :: tr
              = pre ++ Sent A :: mid ++ TurnBegin B :: post) in E.
      apply app_eq_app in E as [l [[E1 E2]|[E1 E2]]].
      * exfalso. destruct l as [|e0 l]; simpl in E2; [discriminate|].
        injection E2 as <- _.
        assert (Hin : Sent A ∈ TurnBegin m :: calls).
        { rewrite E1. apply elem_of_app. right. apply list_elem_of_here. }
        apply elem_of_cons in Hin as [Hin|Hin]; [discriminate|].
        exact (called_no_sent _ _ Hc Hin).
      * destruct l as [|e0 l]; simpl in E2; [discriminate|].
        injection E2 as _ E2. eapply IH; eauto.
Qed.

(** Messages whose turn begins in a log, in order. *)
Fixpoint begun (tr : list Event) : list Message :=
  match tr with
  | [] => []
  | TurnBegin m :: tr' => m :: begun tr'
  | _ :: tr' => begun tr'
  end.

Lemma begun_app tr1 tr2 : begun (tr1 ++ tr2) = begun tr1 ++ begun tr2.
Proof.
  induction tr1 as [|e tr1 IH]; simpl; [reflexivity|].
  destruct e; simpl; now rewrite IH.
Qed.

Lemma begun_notifications a : begun (notifications a) = [].
Proof.
  unfold notifications. induction (subscribers a) as [|cb l IH]; simpl; auto.
Qed.

Lemma quietRun_begun ms a : begun (quietRun ms a).2 = validMessages ms.
Proof.
  revert a. induction ms as [|m ms IH]; intros a; simpl; [reflexivity|].
  destruct (isMessageTypeValid (msgType m)) eqn:Hv.
  - specialize (IH (commit m a)). destruct (quietRun ms (commit m a)) as [a2 tr].
    simpl in *. rewrite begun_app, begun_app, begun_notifications. simpl.
    now rewrite IH.
  - specialize (IH a). now destruct (quietRun ms a) as [a2 tr].
Qed.

(** Messages that [sendMessage] was called with in a log, in order: by the
    client or by a subscriber from inside a turn. *)
Fixpoint sent (tr : list Event) : list Message :=
  match tr with
  | [] => []
  | Sent m :: tr' => m :: sent tr'
  | _ :: tr' => sent tr'
  end.

Lemma sent_app tr1 tr2 : sent (tr1 ++ tr2) = sent tr1 ++ sent tr2.
Proof.
  induction tr1 as [|e tr1 IH]; simpl; [reflexivity|].
  destruct e; simpl; now rewrite IH.
Qed.

(** What a piece of a run does to the history: one entry of [past] for
    every turn begun, [future] emptied by the first of them, nothing at all
    without one; and the turns begun are the accepted messages sent. *)
Definition grown (a : Actor) (tr : list Event) (a' : Actor) : Prop :=
  length (past (history a')) = length (past (history a)) + length (begun tr) /\
  (begun tr <> [] -> future (history a') = []) /\
  (begun tr = [] -> a' = a) /\
  begun tr = validMessages (sent tr).

Lemma grown_nil a : grown a [] a.
Proof.
  unfold grown. simpl. split; [lia|]. split; [intros H; now destruct H|].
  split; reflexivity.
Qed.

Lemma grown_app a a1 a2 tr1 tr2 :
  grown a tr1 a1 -> grown a1 tr2 a2 -> grown a (tr1 ++ tr2) a2.
Proof.
  intros (L1 & F1 & E1 & S1) (L2 & F2 & E2 & S2).
  unfold grown. rewrite begun_app, sent_app, length_app.
  unfold validMessages in *. rewrite List.filter_app, <- S1, <- S2.
  repeat split.
  - lia.
  - intros Hne. destruct (begun tr2) as [|m2 l2] eqn:B2.
    + rewrite (E2 eq_refl). apply F1. now rewrite app_nil_r in Hne.
    + now apply F2.
  - intros Hnil. apply app_eq_nil in Hnil as [H1 H2].
    now rewrite (E2 H2), (E1 H1).
Qed.

Lemma forEach_grown {X : Type} (body : X -> Run) (xs : list X) :
  (forall x a a' tr, body x a = Some (a', tr) -> grown a tr a') ->
  forall a a' tr, forEach body xs a = Some (a', tr) -> grown a tr a'.
Proof.
  intros Hbody. induction xs as [|x xs IH]; intros a a' tr; simpl.
  - intros [= <- <-]. apply grown_nil.
  - destruct (body x a) as [[a1 e1]|] eqn:B; [|discriminate].
    destruct (forEach body xs a1) as [[a2 e2]|] eqn:F; [|discriminate].
    intros [= <- <-]. eapply grown_app; eauto.
Qed.

Lemma grown_called a tr a' sub s :
  grown a tr a' -> grown a (Called sub s :: tr) a'.
Proof. intros H. exact H. Qed.

Lemma sendMessage_grown depth :
  forall m a a' tr, sendMessage depth m a = Some (a', tr) -> grown a tr a'.
Proof.
  induction depth as [|depth IH]; intros m a a' tr; simpl; [discriminate|].
  destruct (isMessageTypeValid (msgType m)) eqn:Hv; simpl.
  - unfold processMessage, produceWithPatches.
    set (rc := recordChange _ _ a).
    destruct (notifySubscribers (sendMessage depth) rc) as [[a2 ev]|] eqn:N;
      [|discriminate].
    intros [= <- <-].
    assert (G : grown rc ev a2).
    { unfold notifySubscribers in N.
      revert N. apply forEach_grown. intros cb a0 a0' tr0.
      destruct (forEach (sendMessage depth) (sub_run cb (state a0)) a0)
        as [[a3 ev3]|] eqn:F; [|discriminate].
      intros [= <- <-]. apply grown_called.
      revert F. apply forEach_grown. exact IH. }
    destruct G as (L & F & E & S).
    unfold grown. cbn [begun sent]. rewrite begun_app, sent_app. cbn [begun sent].
    rewrite !app_nil_r. unfold validMessages in *. cbn [List.filter].
    rewrite Hv, <- S. repeat split.
    + rewrite L. subst rc. simpl. rewrite length_app. simpl. lia.
    + intros _. destruct (begun ev) as [|m2 l2] eqn:B.
      * now rewrite (E eq_refl).
      * now apply F.
    + discriminate.
  - intros [= <- <-]. unfold grown, validMessages. simpl. rewrite Hv.
    repeat split; [lia|congruence].
Qed.

Lemma sendAll_grown depth ms a a' tr :
  sendAll depth ms a = Some (a', tr) -> grown a tr a'.
Proof. unfold sendAll. apply forEach_grown. apply sendMessage_grown. Qed.

(** C9: a message whose type [isMessageTypeValid] rejects leaves the actor
    as it was (state, history and subscribers), the call returns normally,
    and the only things that happen are the call itself and the console
    warning: no subscriber is invoked. *)
Theorem sendMessage_rejected_is_noop depth m a :
  isMessageTypeValid (msgType m) = false ->
  sendMessage (S depth) m a = Some (a, [Sent m; Warned (msgType m)]).
Proof. intros H. simpl. now rewrite H. Qed.

(** C3 (amended): the actor has no queue; [sendMessage] runs the whole
    turn before it returns.  When no subscriber sends to the actor from
    inside its callback, messages sent one after the other are all
    processed, every turn ends before a later-sent message begins its
    turn, and turns begin in submission order. *)
Theorem sequential_sends_complete_in_order depth ms a :
  passive a ->
  exists a' tr,
    sendAll (S depth) ms a = Some (a', tr) /\
    completes_before tr /\
    begun tr = validMessages ms.
Proof.
  intros H. exists (quietRun ms a).1, (quietRun ms a).2. split; [|split].
  - rewrite sendAll_passive by exact H. now destruct (quietRun ms a).
  - apply serial_completes, quietRun_serial.
  - apply quietRun_begun.
Qed.

(** C8 (amended): the history is a stack of (state snapshot, inverse
    patches) pairs with no depth limit.  Every accepted message, whether
    the client sends it or a subscriber does from inside a turn, begins a
    turn, and every turn pushes one pair onto [past] and empties [future]:
    whenever the sends return, the depth of [past] is the depth before plus
    the number of turns, and a run without any turn leaves the actor as it
    was.  When no subscriber sends from inside its callback the sends always
    return and the turns are those of the accepted messages of the client,
    so after n of them the depth is the depth before plus n. *)
Theorem history_grows_with_every_turn ms a :
  (forall depth a' tr,
     sendAll depth ms a = Some (a', tr) ->
     begun tr = validMessages (sent tr) /\
     length (past (history a')) = length (past (history a)) + length (begun tr) /\
     (begun tr <> [] -> future (history a') = []) /\
     (begun tr = [] -> a' = a)) /\
  (passive a ->
   forall depth, exists a' tr,
     sendAll (S depth) ms a = Some (a', tr) /\
     begun tr = validMessages ms /\
     past (history a') = past (history a) ++ changes (state a) (validMessages ms) /\
     length (past (history a')) =
       length (past (history a)) + length (validMessages ms) /\
     (validMessages ms <> [] -> future (history a') = [])).
Proof.
  split.
  - intros depth a' tr H. apply sendAll_grown in H as (L & F & E & S). auto.
  - intros H depth. exists (quietRun ms a).1, (quietRun ms a).2.
    assert (R : sendAll (S depth) ms a = Some ((quietRun ms a).1, (quietRun ms a).2)).
    { rewrite sendAll_passive by exact H. now destruct (quietRun ms a). }
    split; [exact R|]. split; [apply quietRun_begun|]. split; [apply quietRun_past|].
    split.
    + rewrite quietRun_past, length_app, length_changes. reflexivity.
    + intros Hne. apply sendAll_grown in R as (_ & F & _ & _).
      apply F. now rewrite quietRun_begun.
Qed.

End Actor.

(** *** A concrete actor: a counter driven by "ping" and "pong" *)

Definition counterType (m : string) : string := m.
Definition counterValid (ty : string) : bool :=
  (String.eqb ty "ping" || String.eqb ty "pong")%bool.
Definition counterHandle (s : nat) (m : string) : nat := S s.
(** One [replace] patch at the root, carrying the target value. *)
Definition counterDiff (a b : nat) : list nat := [b].

Definition counterActor : @Actor nat string nat := newActor "counter" 0.

(** A subscriber that answers the first state change with a "pong". *)
Definition echo : @Subscriber nat string :=
  {| sub_id := 0;
     sub_run := fun s : nat => if Nat.eqb s 1 then ["pong"%string] else [] |}.

Definition echoActor : @Actor nat string nat := subscribe echo counterActor.

Definition echoTrace : list (@Event nat string) :=
  [ Sent "ping"; TurnBegin "ping"; Called 0 1;
    Sent "pong"; TurnBegin "pong"; Called 0 2; TurnEnd "pong";
    TurnEnd "ping" ]%string.

Lemma validMessages_repeat n :
  validMessages counterType counterValid (repeat "ping"%string n) = repeat "ping"%string n.
Proof. induction n as [|n IH]; simpl; [|rewrite IH]; reflexivity. Qed.

Lemma counterActor_passive : passive counterActor.
Proof. constructor. Qed.

(** C3 (as stated, refuted): "ping" is sent, and while its subscribers are
    being notified one of them sends "pong"; the turn of "pong" begins and
    ends before the turn of "ping" ends. *)
Lemma reentrant_send_interleaves :
  (exists a',
     sendMessage counterType counterDiff counterValid counterHandle
                 2 "ping"%string echoActor = Some (a', echoTrace)) /\
  ~ completes_before counterType counterValid echoTrace.
Proof.
  split; [eexists; reflexivity|].
  intros H.
  specialize (H "ping"%string "pong"%string []
                [TurnBegin "ping"%string; Called 0 1; Sent "pong"%string]
                [Called 0 2; TurnEnd "pong"%string; TurnEnd "ping"%string]
                eq_refl eq_refl).
  assert (Hin : @Sent nat string "pong" ∈
                [TurnBegin "ping"%string; Called 0 1; Sent "pong"%string])
    by (do 2 apply list_elem_of_further; apply list_elem_of_here).
  specialize (H Hin).
  repeat (apply elem_of_cons in H as [H|H]; [discriminate|]).
  now apply elem_of_nil in H.
Qed.

(** C8 (as stated, refuted): whatever bound is proposed, one more "ping"
    than the bound leaves a deeper history. *)
Lemma history_exceeds_every_bound :
  ~ history_bounded counterType counterDiff counterValid counterHandle counterActor.
Proof.
  intros [bound H].
  pose proof (sendAll_passive counterType counterDiff counterValid counterHandle
                0 (repeat "ping"%string (S bound)) counterActor
                counterActor_passive) as E.
  pose proof (quietRun_past counterType counterDiff counterValid counterHandle
                (repeat "ping"%string (S bound)) counterActor) as P.
  destruct (quietRun _ _ _ _ _ _) as [a' tr].
  specialize (H _ _ _ _ E). cbn [fst] in P. rewrite P in H.
  rewrite length_app, length_changes, validMessages_repeat, repeat_length in H.
  cbn [counterActor newActor history past length] in H. lia.
Qed.

Lemma sendMessage_rejected_is_noop_witness :
  sendMessage counterType counterDiff counterValid counterHandle
              1 "reset"%string echoActor
  = Some (echoActor, [Sent "reset"%string; Warned "reset"%string]).
Proof.
  apply (sendMessage_rejected_is_noop counterType counterDiff counterValid
           counterHandle 0 "reset"%string echoActor).
  reflexivity.
Defined.

Lemma sequential_sends_complete_in_order_witness :
  exists a' tr,
    sendAll counterType counterDiff counterValid counterHandle
            1 ["ping"; "reset"; "pong"]%string counterActor = Some (a', tr) /\
    completes_before counterType counterValid tr /\
    begun tr = ["ping"; "pong"]%string.
Proof.
  apply (sequential_sends_complete_in_order counterType counterDiff counterValid
           counterHandle 0 ["ping"; "reset"; "pong"]%string counterActor).
  constructor.
Defined.

Lemma history_grows_with_every_turn_witness :
  (exists a',
     sendAll counterType counterDiff counterValid counterHandle
             2 ["ping"]%string echoActor = Some (a', echoTrace) /\
     length (past (history a')) = 2 /\ future (history a') = []) /\
  (exists a' tr,
     sendAll counterType counterDiff counterValid counterHandle
             1 ["ping"; "reset"; "pong"]%string counterActor = Some (a', tr) /\
     past (history a') =
       [ {| sc_state := 1; sc_inversePatches := [0] |};
         {| sc_state := 2; sc_inversePatches := [1] |} ] /\
     future (history a') = []).
Proof.
  split.
  - destruct (history_grows_with_every_turn counterType counterDiff counterValid
                counterHandle ["ping"]%string echoActor) as [Hany _].
    eexists. split; [reflexivity|].
    destruct (Hany 2 _ echoTrace eq_refl) as (_ & L & F & _).
    split; [exact L|]. apply F. discriminate.
  - destruct (history_grows_with_every_turn counterType counterDiff counterValid
                counterHandle ["ping"; "reset"; "pong"]%string counterActor)
      as [_ Hquiet].
    destruct (Hquiet counterActor_passive 0) as (a' & tr & R & _ & P & _ & F).
    exists a', tr. split; [exact R|]. split; [exact P|]. apply F. discriminate.
Defined.

(** *** The rest of the class: unsubscribing, undo and redo *)

Section History.

Context {State Message Patch : Type}.
Variable msgType : Message -> string.
Variable diff : State -> State -> list Patch.
Variable isMessageTypeValid : string -> bool.
Variable handleMessage : State -> Message -> State.

(** Immer's [applyPatches(base, patches)]; it returns the next state. *)
Variable applyPatches : State -> list Patch -> State.

(** The array pattern [const [newState, newPatches] = v]: when [v] is
    iterable it binds the first two values that [v] yields; when it is not
    (a plain object, a number), evaluating the pattern throws a TypeError. *)
Variable destructure : State -> option (State * list Patch).

Local Abbreviation send := (sendMessage msgType diff isMessageTypeValid handleMessage).
Local Abbreviation ActorT := (@Actor State Message Patch).

(** The function that [subscribe(callback)] returns:
    [this.subscribers = this.subscribers.filter((s) => s !== callback)].
    [sub_id] is the identity of the function object. *)
Definition unsubscribe (cb : @Subscriber State Message) (a : ActorT) : ActorT :=
  {| id := id a; state := state a;
     subscribers :=
       List.filter (fun s => negb (Nat.eqb (sub_id s) (sub_id cb))) (subscribers a);
     history := history a |}.

(** [Array.prototype.pop]: the last element and what is left, or nothing. *)
Definition pop {A : Type} (l : list A) : option (A * list A) :=
  match rev l with
  | [] => None
  | x :: r => Some (x, rev r)
  end.

Inductive Outcome :=
| Returned (a : ActorT) (ev : list (@Event State Message))
| Threw (message : string) (a : ActorT)
| Exhausted.

(** [undo()] *)
Definition undo (depth : nat) (a : ActorT) : Outcome :=
  match pop (past (history a)) with
  | None => Returned a []
  | Some (top, rest) =>
      (* past has lost its last entry from here on *)
      match destructure (applyPatches (state a) (sc_inversePatches top)) with
      | None =>
          Threw "TypeError: applyPatches(...) is not iterable"
                {| id := id a; state := state a; subscribers := subscribers a;
                   history := {| past := rest; future := future (history a) |} |}
      | Some (newState, newPatches) =>
          match notifySubscribers (send depth)
                  {| id := id a; state := newState; subscribers := subscribers a;
                     history :=
                       {| past := rest;
                          future := future (history a) ++
                                    [{| sc_state := state a;
                                        sc_inversePatches := newPatches |}] |} |}
          with
          | None => Exhausted
          | Some (a', ev) => Returned a' ev
          end
      end
  end.

(** [redo()] *)
Definition redo (depth : nat) (a : ActorT) : Outcome :=
  match pop (future (history a)) with
  | None => Returned a []
  | Some (top, rest) =>
      match destructure (applyPatches (state a) (sc_inversePatches top)) with
      | None =>
          Threw "TypeError: applyPatches(...) is not iterable"
                {| id := id a; state := state a; subscribers := subscribers a;
                   history := {| past := past (history a); future := rest |} |}
      | Some (newState, newPatches) =>
          match notifySubscribers (send depth)
                  {| id := id a; state := newState; subscribers := subscribers a;
                     history :=
                       {| past := past (history a) ++
                                  [{| sc_state := state a;
                                      sc_inversePatches := newPatches |}];
                          future := rest |} |}
          with
          | None => Exhausted
          | Some (a', ev) => Returned a' ev
          end
      end
  end.

(** *** Facts *)

Lemma pop_snoc {A : Type} (l : list A) (x : A) : pop (l ++ [x]) = Some (x, l).
Proof. unfold pop. rewrite rev_app_distr. simpl. now rewrite rev_involutive. Qed.

Lemma pop_nil_inv {A : Type} (l : list A) : pop l = None -> l = [].
Proof.
  unfold pop. intros H. destruct (rev l) eqn:E; [|discriminate].
  rewrite <- (rev_involutive l), E. reflexivity.
Qed.

Lemma pop_Some_inv {A : Type} (l : list A) x r : pop l = Some (x, r) -> l = r ++ [x].
Proof.
  unfold pop. intros H. destruct (rev l) as [|y t] eqn:E; [discriminate|].
  injection H as <- <-. rewrite <- (rev_involutive l), E. reflexivity.
Qed.

Lemma forEach_keeps {X : Type} (P : ActorT -> Prop)
      (body : X -> ActorT -> option (ActorT * list (@Event State Message))) xs :
  (forall x a a' ev, P a -> body x a = Some (a', ev) -> P a') ->
  forall a a' ev, P a -> forEach body xs a = Some (a', ev) -> P a'.
Proof.
  intros Hbody. induction xs as [|x xs IH]; intros a a' ev Ha H; simpl in H.
  - now injection H as <- _.
  - destruct (body x a) as [[a1 e1]|] eqn:E1; [|discriminate].
    destruct (forEach body xs a1) as [[a2 e2]|] eqn:E2; [|discriminate].
    injection H as <- _. eapply IH; [|exact E2]. eapply Hbody; eauto.
Qed.

Lemma sendMessage_keeps_future_empty depth m (a a' : ActorT) ev :
  future (history a) = [] ->
  send depth m a = Some (a', ev) ->
  future (history a') = [].
Proof.
  revert m a a' ev. induction depth as [|depth IH]; intros m a a' ev Ha H; [discriminate|].
  simpl in H. destruct (isMessageTypeValid (msgType m)); simpl in H.
  - unfold processMessage, produceWithPatches, notifySubscribers in H.
    match type of H with
    | match match forEach ?body ?xs ?a0 with _ => _ end with _ => _ end = _ =>
        destruct (forEach body xs a0) as [[a2 e2]|] eqn:E; [|discriminate];
        injection H as <- _;
        refine (forEach_keeps (fun x => future (history x) = []) body xs _ a0 a2 e2 eq_refl E)
    end.
    intros cb b b' evb Hb Hcb.
    destruct (forEach (send depth) (sub_run cb (state b)) b) as [[b2 eb]|] eqn:E2;
      [|discriminate].
    injection Hcb as <- _.
    refine (forEach_keeps (fun x => future (history x) = []) _ _ _ b b2 eb Hb E2).
    intros m' c c' evc Hc Hm. eapply IH; eauto.
  - now injection H as <- _.
Qed.

Lemma sendMessage_accepted_empties_future depth m (a a' : ActorT) ev :
  isMessageTypeValid (msgType m) = true ->
  send depth m a = Some (a', ev) ->
  future (history a') = [].
Proof.
  intros Hv H. destruct depth as [|depth]; [discriminate|].
  simpl in H. rewrite Hv in H. simpl in H.
  unfold processMessage, produceWithPatches, notifySubscribers in H.
  match type of H with
  | match match forEach ?body ?xs ?a0 with _ => _ end with _ => _ end = _ =>
      destruct (forEach body xs a0) as [[a2 e2]|] eqn:E; [|discriminate];
      injection H as <- _;
      refine (forEach_keeps (fun x => future (history x) = []) body xs _ a0 a2 e2 eq_refl E)
  end.
  intros cb b b' evb Hb Hcb.
  destruct (forEach (send depth) (sub_run cb (state b)) b) as [[b2 eb]|] eqn:E2;
    [|discriminate].
  injection Hcb as <- _.
  refine (forEach_keeps (fun x => future (history x) = []) _ _ _ b b2 eb Hb E2).
  intros m' c c' evc Hc Hm. eapply sendMessage_keeps_future_empty; eauto.
Qed.

(** X2: An accepted message throws the redo stack away, also when subscribers
    send further messages from inside the turn: once [sendMessage] has
    returned, [redo()] finds nothing and returns at once, leaving the actor
    as it is and notifying nobody. *)
Theorem accepted_message_discards_redo depth depth' m (a a' : ActorT) ev :
  isMessageTypeValid (msgType m) = true ->
  send depth m a = Some (a', ev) ->
  future (history a') = [] /\ redo depth' a' = Returned a' [].
Proof.
  intros Hv H.
  pose proof (sendMessage_accepted_empties_future depth m a a' ev Hv H) as Hf.
  split; [exact Hf|]. unfold redo. now rewrite Hf.
Qed.

(** X3: When the value that [applyPatches] returns is not iterable (the state
    is a plain object or a number), [undo()] on a non-empty history throws,
    and it does so after [pop]: the newest history entry is gone, while the
    state, the redo stack and the subscribers are as before and nobody is
    notified.  On an empty history it returns at once. *)
Theorem undo_loses_entry_when_state_not_iterable depth (a : ActorT) :
  (forall s, destructure s = None) ->
  (past (history a) = [] /\ undo depth a = Returned a []) \/
  (exists top rest message a',
     past (history a) = rest ++ [top] /\
     undo depth a = Threw message a' /\
     past (history a') = rest /\
     state a' = state a /\
     future (history a') = future (history a) /\
     subscribers a' = subscribers a).
Proof.
  intros Hd. unfold undo. destruct (pop (past (history a))) as [[top rest]|] eqn:E.
  - right. rewrite Hd. apply pop_Some_inv in E.
    eexists top, rest, _, _. split; [exact E|]. repeat split.
  - left. split; [now apply pop_nil_inv|reflexivity].
Qed.

Lemma passive_unsubscribe cb (a : ActorT) : passive a -> passive (unsubscribe cb a).
Proof.
  unfold passive, unsubscribe. simpl. intros H.
  apply Forall_forall. intros s Hs.
  apply list_elem_of_In, filter_In in Hs as [Hs _].
  rewrite Forall_forall in H. now apply H, list_elem_of_In.
Qed.

Lemma quietRun_called ms (a : ActorT) i s :
  Called i s ∈ (quietRun msgType diff isMessageTypeValid handleMessage ms a).2 ->
  exists sub, sub ∈ subscribers a /\ sub_id sub = i.
Proof.
  revert a. induction ms as [|m ms IH]; intros a H; simpl in H.
  - now apply elem_of_nil in H.
  - destruct (isMessageTypeValid (msgType m)).
    + specialize (IH (commit diff handleMessage m a)).
      destruct (quietRun _ _ _ _ ms _) as [a2 tr]. simpl in *.
      apply elem_of_cons in H as [H|H]; [discriminate|].
      apply elem_of_cons in H as [H|H]; [discriminate|].
      apply elem_of_app in H as [H|H].
      * apply elem_of_app in H as [H|H].
        -- unfold notifications in H.
           apply list_elem_of_In, in_map_iff in H as (sub & E & Hin).
           injection E as <- _. exists sub. split; [now apply list_elem_of_In|reflexivity].
        -- apply list_elem_of_singleton in H. discriminate.
      * now apply IH.
    + specialize (IH a). destruct (quietRun _ _ _ _ ms a) as [a2 tr]. simpl in *.
      apply elem_of_cons in H as [H|H]; [discriminate|].
      apply elem_of_cons in H as [H|H]; [discriminate|].
      now apply IH.
Qed.

Lemma filter_all_kept {A : Type} (f : A -> bool) (l : list A) :
  Forall (fun x => f x = true) l -> List.filter f l = l.
Proof. induction 1 as [|x l Hx _ IH]; simpl; [reflexivity|]. now rewrite Hx, IH. Qed.

(** X4: Unsubscribing removes every registration of the callback, however many
    times it was subscribed: no subscriber with its identity is left, and an
    actor whose remaining subscribers do not send never calls it again.  When the
    callback was not subscribed before, subscribing and unsubscribing it
    gives the actor back unchanged. *)
Theorem unsubscribe_removes_every_registration
        (cb : @Subscriber State Message) (a : ActorT) :
  Forall (fun s => sub_id s <> sub_id cb) (subscribers (unsubscribe cb a)) /\
  unsubscribe cb (subscribe cb (subscribe cb a)) = unsubscribe cb a /\
  (Forall (fun s => sub_id s <> sub_id cb) (subscribers a) ->
     unsubscribe cb (subscribe cb a) = a) /\
  (passive (unsubscribe cb a) ->
     forall depth ms, exists a' tr,
       sendAll msgType diff isMessageTypeValid handleMessage
               (S depth) ms (unsubscribe cb a) = Some (a', tr) /\
       forall s, Called (sub_id cb) s ∉ tr).
Proof.
  split; [|split; [|split]].
  - apply Forall_forall. intros s Hs. unfold unsubscribe in Hs. simpl in Hs.
    apply list_elem_of_In, filter_In in Hs as [_ Hs].
    destruct (Nat.eqb_spec (sub_id s) (sub_id cb)); [discriminate|assumption].
  - unfold unsubscribe, subscribe. simpl. f_equal.
    rewrite !List.filter_app. simpl. rewrite Nat.eqb_refl. simpl.
    now rewrite !app_nil_r.
  - intros H. unfold unsubscribe, subscribe. destruct a as [i st subs h]. simpl in *.
    f_equal. rewrite List.filter_app. simpl. rewrite Nat.eqb_refl. simpl.
    rewrite app_nil_r. apply filter_all_kept.
    eapply Forall_impl; [exact H|]. intros s Hs. simpl in Hs.
    now destruct (Nat.eqb_spec (sub_id s) (sub_id cb)).
  - intros Hp depth ms.
    pose proof (sendAll_passive msgType diff isMessageTypeValid handleMessage
                  depth ms (unsubscribe cb a) Hp) as E.
    exists (quietRun msgType diff isMessageTypeValid handleMessage ms (unsubscribe cb a)).1,
           (quietRun msgType diff isMessageTypeValid handleMessage ms (unsubscribe cb a)).2.
    split; [rewrite E; now destruct (quietRun _ _ _ _ ms _)|].
    intros s Hin. apply quietRun_called in Hin as (sub & Hsub & Hid).
    unfold unsubscribe in Hsub. simpl in Hsub.
    apply list_elem_of_In, filter_In in Hsub as [_ Hsub].
    rewrite Hid, Nat.eqb_refl in Hsub. discriminate.
Qed.

End History.

Lemma accepted_message_discards_redo_witness :
  exists a' ev,
    sendMessage counterType counterDiff counterValid counterHandle
                2 "ping"%string echoActor = Some (a', ev) /\
    redo counterType counterDiff counterValid counterHandle
         (fun s _ => s) (fun _ => None) 1 a' = Returned a' [].
Proof.
  eexists _, _. split; [reflexivity|].
  refine (proj2 (accepted_message_discards_redo counterType counterDiff counterValid
                   counterHandle (fun s _ => s) (fun _ => None)
                   2 1 "ping"%string echoActor _ _ eq_refl eq_refl)).
Defined.

Lemma undo_loses_entry_when_state_not_iterable_witness :
  exists message a',
    undo counterType counterDiff counterValid counterHandle
         (fun s _ => s) (fun _ => None) 1
         (quietRun counterType counterDiff counterValid counterHandle
                   ["ping"; "pong"]%string counterActor).1
      = Threw message a' /\
    length (past (history a')) = 1 /\ state a' = 2.
Proof.
  destruct (undo_loses_entry_when_state_not_iterable
              counterType counterDiff counterValid counterHandle
              (fun s _ => s) (fun _ => None) 1
              (quietRun counterType counterDiff counterValid counterHandle
                        ["ping"; "pong"]%string counterActor).1
              (fun _ => eq_refl))
    as [[Hnil _]|(top & rest & message & a' & Hpast & Hundo & Hrest & Hstate & _)].
  - discriminate Hnil.
  - exists message, a'. split; [exact Hundo|]. split; [|exact Hstate].
    rewrite Hrest. simpl in Hpast.
    apply (f_equal (@length _)) in Hpast. rewrite length_app in Hpast.
    simpl in Hpast. lia.
Defined.

(** A subscriber that only watches. *)
Definition watcher : @Subscriber nat string :=
  {| sub_id := 3; sub_run := fun _ => [] |}.

Lemma unsubscribe_removes_every_registration_witness :
  unsubscribe watcher (subscribe watcher counterActor) = counterActor /\
  exists a' tr,
    sendAll counterType counterDiff counterValid counterHandle
            1 ["ping"; "pong"]%string
            (unsubscribe echo (subscribe watcher echoActor))
      = Some (a', tr) /\
    forall s, Called 0 s ∉ tr.
Proof.
  destruct (unsubscribe_removes_every_registration
              counterType counterDiff counterValid counterHandle watcher counterActor)
    as (_ & _ & Hround & _).
  destruct (unsubscribe_removes_every_registration
              counterType counterDiff counterValid counterHandle echo
              (subscribe watcher echoActor))
    as (_ & _ & _ & Hquiet).
  split; [apply Hround; constructor|].
  assert (Hp : passive (unsubscribe echo (subscribe watcher echoActor))).
  { constructor; [intros s; reflexivity|constructor]. }
  apply (Hquiet Hp 0 ["ping"; "pong"]%string).
Defined.

(** *** Children: [createChild], [removeChild], [_setChildren] *)

(** A child actor: the object and what its [getId()] returns. *)
Record Child := mkChild {
  child_ref : nat;
  child_id : string
}.

(** The own property [children] of an actor: its value and whether it has
    been redefined with [writable: false, configurable: false].  The class
    field starts as an ordinary (writable, configurable) property holding
    the empty array. *)
Record ChildrenProperty := mkChildren {
  children : list Child;
  sealed : bool
}.

Definition freshChildren : ChildrenProperty :=
  {| children := []; sealed := false |}.

(** [_setChildren(children)]:
    [Object.defineProperty(this, 'children',
       { value: Object.freeze(children), writable: false, enumerable: true,
         configurable: false })].
    Both callers pass the array that Immer's [produce] built after a [push]
    or a [splice], a new object.  On a property that is already
    non-configurable and non-writable, [defineProperty] with another value
    throws a TypeError ([None]). *)
Definition _setChildren (newChildren : list Child) (p : ChildrenProperty)
  : option ChildrenProperty :=
  if sealed p then None
  else Some {| children := newChildren; sealed := true |}.

(** [this.children.findIndex((child) => child.getId() === childId)] *)
Fixpoint findIndex (childId : string) (l : list Child) : option nat :=
  match l with
  | [] => None
  | c :: l' =>
      if String.eqb (child_id c) childId then Some 0
      else option_map S (findIndex childId l')
  end.

Inductive ChildResult :=
| CreatedChild (c : Child)      (* createChild returned the child *)
| Removed (found : bool)        (* removeChild returned this boolean *)
| TypeError.                    (* Cannot redefine property: children *)

(** [createChild(id, initialState, factory)]; [child] is what
    [factory(id, initialState, this)] returned. *)
Definition createChild (child : Child) (p : ChildrenProperty)
  : ChildResult * ChildrenProperty :=
  match _setChildren (children p ++ [child]) p with
  | Some p' => (CreatedChild child, p')
  | None => (TypeError, p)
  end.

(** [removeChild(childId)] *)
Definition removeChild (childId : string) (p : ChildrenProperty)
  : ChildResult * ChildrenProperty :=
  match findIndex childId (children p) with
  | None => (Removed false, p)
  | Some childIndex =>
      match _setChildren (delete childIndex (children p)) p with
      | Some p' => (Removed true, p')
      | None => (TypeError, p)
      end
  end.

Inductive ChildCall :=
| CreateChild (child : Child)
| RemoveChild (childId : string).

Definition childStep (c : ChildCall) (p : ChildrenProperty)
  : ChildResult * ChildrenProperty :=
  match c with
  | CreateChild child => createChild child p
  | RemoveChild childId => removeChild childId p
  end.

(** A client's calls on one actor, with what each call gave. *)
Fixpoint runChildren (cs : list ChildCall) (p : ChildrenProperty)
  : list ChildResult * ChildrenProperty :=
  match cs with
  | [] => ([], p)
  | c :: cs' =>
      let '(r, p1) := childStep c p in
      let '(rs, p2) := runChildren cs' p1 in
      (r :: rs, p2)
  end.

(** The children that the calls asked to create, in call order. *)
Fixpoint requested (cs : list ChildCall) : list Child :=
  match cs with
  | [] => []
  | CreateChild child :: cs' => child :: requested cs'
  | RemoveChild _ :: cs' => requested cs'
  end.

Lemma findIndex_None_not_in childId l c :
  findIndex childId l = None -> c ∈ l -> child_id c <> childId.
Proof.
  induction l as [|x l IH]; intros H Hin; [now apply elem_of_nil in Hin|].
  simpl in H. destruct (String.eqb_spec (child_id x) childId); [discriminate|].
  destruct (findIndex childId l); [discriminate|].
  apply elem_of_cons in Hin as [->|Hin]; [assumption|now apply IH].
Qed.

(** What a call gives, told from the calls made before it: [first] is the
    child of the first [createChild] among them, if there was one. *)
Definition expected (first : option Child) (c : ChildCall) : ChildResult :=
  match c, first with
  | CreateChild child, None => CreatedChild child
  | CreateChild _, Some _ => TypeError
  | RemoveChild _, None => Removed false
  | RemoveChild childId, Some f =>
      if String.eqb (child_id f) childId then TypeError else Removed false
  end.

Lemma runChildren_sealed cs p :
  sealed p = true ->
  (runChildren cs p).2 = p /\
  Forall (fun r => r = TypeError \/ r = Removed false) (runChildren cs p).1.
Proof.
  intros Hp. induction cs as [|c cs IH]; simpl; [split; [reflexivity|constructor]|].
  assert (E : exists r, childStep c p = (r, p) /\ (r = TypeError \/ r = Removed false)).
  { destruct c as [child|childId]; simpl.
    - unfold createChild, _setChildren. rewrite Hp. eauto.
    - unfold removeChild, _setChildren. rewrite Hp.
      destruct (findIndex childId (children p)); eauto. }
  destruct E as (r & -> & Hr). destruct IH as [IH1 IH2].
  destruct (runChildren cs p) as [rs p2]. simpl in *.
  split; [assumption|]. now constructor.
Qed.

Lemma runChildren_app cs1 cs2 p :
  runChildren (cs1 ++ cs2) p =
  ((runChildren cs1 p).1 ++ (runChildren cs2 (runChildren cs1 p).2).1,
   (runChildren cs2 (runChildren cs1 p).2).2).
Proof.
  revert p. induction cs1 as [|c cs1 IH]; intros p; simpl.
  - now destruct (runChildren cs2 p).
  - destruct (childStep c p) as [r p1]. rewrite IH.
    destruct (runChildren cs1 p1) as [rs1 p2]. simpl.
    now destruct (runChildren cs2 p2).
Qed.

Lemma runChildren_length cs p : length (runChildren cs p).1 = length cs.
Proof.
  revert p. induction cs as [|c cs IH]; intros p; simpl; [reflexivity|].
  destruct (childStep c p) as [r p1]. specialize (IH p1).
  destruct (runChildren cs p1) as [rs p2]. simpl in *. now rewrite IH.
Qed.

Lemma runChildren_property cs :
  (runChildren cs freshChildren).2 =
  match requested cs with
  | [] => freshChildren
  | first :: _ => {| children := [first]; sealed := true |}
  end.
Proof.
  induction cs as [|c cs IH]; [reflexivity|].
  destruct c as [child|childId]; simpl.
  - destruct (runChildren_sealed cs {| children := [child]; sealed := true |} eq_refl)
      as [E _].
    clear IH.
    destruct (runChildren cs {| children := [child]; sealed := true |}) as [rs p2].
    exact E.
  - destruct (runChildren cs freshChildren) as [rs p2]. exact IH.
Qed.

Lemma childStep_expected c pre :
  (childStep c (runChildren pre freshChildren).2).1 = expected (head (requested pre)) c.
Proof.
  rewrite runChildren_property.
  destruct (requested pre) as [|first rest]; destruct c as [child|childId];
    simpl; try reflexivity.
  unfold removeChild. simpl.
  destruct (String.eqb (child_id first) childId); reflexivity.
Qed.

(** X5: Only the first [createChild] of an actor ever takes effect.  It
    redefines [children] as non-writable and non-configurable, so every later
    [createChild], and every [removeChild] that finds its child, throws a
    TypeError and changes nothing: after any calls the actor has at most one
    child, the first one requested, and [removeChild] has never returned
    [true].  What each call gives is told by the calls before it: the first
    [createChild] returns its child, a later one throws; [removeChild]
    throws when its id is that of the first child created before it and
    returns [false] otherwise. *)
Theorem only_first_child_is_ever_attached (cs : list ChildCall) :
  children (runChildren cs freshChildren).2 = take 1 (requested cs) /\
  Forall (fun r => r <> Removed true) (runChildren cs freshChildren).1 /\
  length (runChildren cs freshChildren).1 = length cs /\
  (forall pre c post,
     cs = pre ++ c :: post ->
     (runChildren cs freshChildren).1 !! length pre =
       Some match c, head (requested pre) with
            | CreateChild child, None => CreatedChild child
            | CreateChild _, Some _ => TypeError
            | RemoveChild _, None => Removed false
            | RemoveChild childId, Some first =>
                if String.eqb (child_id first) childId then TypeError
                else Removed false
            end).
Proof.
  split; [|split; [|split; [apply runChildren_length|]]].
  - rewrite runChildren_property. now destruct (requested cs).
  - induction cs as [|c cs IH]; [constructor|].
    destruct c as [child|childId]; simpl.
    + destruct (runChildren_sealed cs {| children := [child]; sealed := true |} eq_refl)
        as [_ E2].
      clear IH.
      destruct (runChildren cs {| children := [child]; sealed := true |}) as [rs p2].
      simpl in *. constructor; [discriminate|].
      eapply Forall_impl; [exact E2|]. intros r [->| ->]; discriminate.
    + destruct (runChildren cs freshChildren) as [rs p2]. simpl in *.
      constructor; [discriminate|assumption].
  - intros pre c post ->. rewrite runChildren_app. cbn [fst].
    rewrite lookup_app_r by (rewrite runChildren_length; lia).
    rewrite runChildren_length, Nat.sub_diag.
    pose proof (childStep_expected c pre) as E. simpl.
    destruct (childStep c (runChildren pre freshChildren).2) as [r p1].
    destruct (runChildren post p1) as [rs p2]. simpl in *. now rewrite E.
Qed.

Lemma only_first_child_is_ever_attached_witness :
  let a := {| child_ref := 1; child_id := "a" |} in
  let b := {| child_ref := 2; child_id := "b" |} in
  let cs := [RemoveChild "a"; CreateChild a; CreateChild b; RemoveChild "a";
             RemoveChild "b"] in
  (runChildren cs freshChildren).1 !! 2 = Some TypeError /\
  (runChildren cs freshChildren).1 !! 3 = Some TypeError /\
  (runChildren cs freshChildren).1 !! 4 = Some (Removed false) /\
  children (runChildren cs freshChildren).2 = [a].
Proof.
  intros a b cs.
  destruct (only_first_child_is_ever_attached cs) as (Hc & _ & _ & Hr).
  split; [|split; [|split]].
  - exact (Hr [RemoveChild "a"; CreateChild a] (CreateChild b)
              [RemoveChild "a"; RemoveChild "b"] eq_refl).
  - exact (Hr [RemoveChild "a"; CreateChild a; CreateChild b] (RemoveChild "a")
              [RemoveChild "b"] eq_refl).
  - exact (Hr [RemoveChild "a"; CreateChild a; CreateChild b; RemoveChild "a"]
              (RemoveChild "b") [] eq_refl).
  - exact Hc.
Defined.

End ActorModel.

(* ===================================================================== *)
(** ** silo.ts, grain_factory.ts, grain_proxy.ts: the activation table *)
(* ===================================================================== *)

Module SiloModel.

(** A grain as the silo sees it: an object ([ref] is the identity of the
    object, which [new] and [new Proxy] make fresh) with an [id] property. *)
Record IGrain := mkGrain {
  ref : nat;
  id : string
}.

(** [private activatedGrains: Map<string, IGrain> = new Map()] *)
Record Silo := mkSilo {
  activatedGrains : gmap string IGrain
}.

(** [activateGrain(grain)]: [this.activatedGrains.set(grain.id, grain)] *)
Definition activateGrain (grain : IGrain) (s : Silo) : Silo :=
  {| activatedGrains := <[id grain := grain]> (activatedGrains s) |}.

(** [deactivateGrain(grainId)]: [this.activatedGrains.delete(grainId)] *)
Definition deactivateGrain (grainId : string) (s : Silo) : Silo :=
  {| activatedGrains := delete grainId (activatedGrains s) |}.

(** The part of the JavaScript heap that matters: the next unused object
    identity, and the silo the factory holds. *)
Record World := mkWorld {
  heapNext : nat;
  silo : Silo
}.

Definition emptyWorld : World :=
  {| heapNext := 0; silo := {| activatedGrains := ∅ |} |}.

(** A grain class, as far as the table is concerned: the [id] that the
    object built by [new grainClass(grainArgs)] carries. *)
Definition GrainClass := list string -> string.

(** [createGrainProxy(grain, silo)]: [new Proxy(grain, handler)].  The
    [get] trap forwards a non-function property to the target, so the proxy
    shows the target's [id]; the proxy itself is a new object. *)
Definition createGrainProxy (grain : IGrain) (fresh : nat) : IGrain :=
  {| ref := fresh; id := id grain |}.

(** [GrainFactory.getGrain(grainClass, grainArgs)] *)
Definition getGrain (grainClass : GrainClass) (grainArgs : list string)
           (w : World) : IGrain * World :=
  let target := {| ref := heapNext w; id := grainClass grainArgs |} in
  let grainProxy := createGrainProxy target (S (heapNext w)) in
  (grainProxy,
   {| heapNext := S (S (heapNext w));
      silo := activateGrain grainProxy (silo w) |}).

(** Every record in the table is an object that was allocated. *)
Definition allocated (w : World) : Prop :=
  forall i g, activatedGrains (silo w) !! i = Some g -> ref g < heapNext w.

(** "Whenever getGrain is invoked for an identity that already has a
    record, the existing record is returned." *)
Definition returns_existing_record : Prop :=
  forall cls args w g,
    allocated w ->
    activatedGrains (silo w) !! cls args = Some g ->
    (getGrain cls args w).1 = g.

Definition userGrain : GrainClass := fun args => String.concat "/" ("user" :: args).

(** *** Facts *)

Lemma allocated_empty : allocated emptyWorld.
Proof. intros i g H. simpl in H. now rewrite lookup_empty in H. Qed.

Lemma allocated_getGrain cls args w :
  allocated w -> allocated (getGrain cls args w).2.
Proof.
  intros Hw i g. simpl. unfold activateGrain; simpl.
  rewrite lookup_insert. case_decide as E.
  - intros [= <-]. simpl. lia.
  - intros H. apply Hw in H. lia.
Qed.

Lemma getGrain_fresh cls args w i g :
  allocated w ->
  activatedGrains (silo w) !! i = Some g ->
  (getGrain cls args w).1 <> g.
Proof.
  intros Hw H E. apply Hw in H. rewrite <- E in H. simpl in H. lia.
Qed.

(** C1 (as stated, refuted): the silo already holds the record of
    "user/42" made by a first [getGrain]; a second [getGrain] for the same
    class and key hands out another record and puts it in the table in
    place of the first. *)
Lemma second_getGrain_makes_second_record :
  ~ returns_existing_record.
Proof.
  intros H.
  pose (w1 := (getGrain userGrain ["42"%string] emptyWorld).2).
  specialize (H userGrain ["42"%string] w1 {| ref := 1; id := "user/42" |}).
  assert (A : allocated w1) by (apply allocated_getGrain, allocated_empty).
  specialize (H A eq_refl). discriminate H.
Qed.

(** C1 (amended): the table is a map, so it holds at most one record per
    identity, but nothing is looked up before activating: [getGrain]
    always builds a new grain and a new proxy, returns that proxy (an object
    different from every record in the table), and [activateGrain] stores
    it under its id in place of whatever was there; the other identities
    keep their records. *)
Theorem getGrain_replaces_record cls args w :
  allocated w ->
  let g := (getGrain cls args w).1 in
  let w' := (getGrain cls args w).2 in
  id g = cls args /\
  (forall i g0, activatedGrains (silo w) !! i = Some g0 -> g <> g0) /\
  activatedGrains (silo w') !! cls args = Some g /\
  (forall i, i <> cls args ->
     activatedGrains (silo w') !! i = activatedGrains (silo w) !! i) /\
  dom (activatedGrains (silo w')) = {[cls args]} ∪ dom (activatedGrains (silo w)) /\
  allocated w'.
Proof.
  intros Hw g w'. repeat split.
  - intros i g0 H. now apply (getGrain_fresh cls args w i g0).
  - subst g w'. simpl. unfold activateGrain; simpl. apply lookup_insert_eq.
  - intros i Hi. subst w'. simpl. unfold activateGrain; simpl.
    now apply lookup_insert_ne.
  - subst w'. simpl. unfold activateGrain; simpl. apply dom_insert_L.
  - now apply allocated_getGrain.
Qed.

Lemma getGrain_replaces_record_witness :
  let w1 := (getGrain userGrain ["42"%string] emptyWorld).2 in
  let g := (getGrain userGrain ["42"%string] w1).1 in
  let w' := (getGrain userGrain ["42"%string] w1).2 in
  id g = "user/42"%string /\
  (forall i g0, activatedGrains (silo w1) !! i = Some g0 -> g <> g0) /\
  activatedGrains (silo w') !! "user/42"%string = Some g /\
  (forall i, i <> "user/42"%string ->
     activatedGrains (silo w') !! i = activatedGrains (silo w1) !! i) /\
  dom (activatedGrains (silo w')) =
    {["user/42"%string]} ∪ dom (activatedGrains (silo w1)) /\
  allocated w'.
Proof.
  apply (getGrain_replaces_record userGrain ["42"%string]
           (getGrain userGrain ["42"%string] emptyWorld).2).
  apply allocated_getGrain, allocated_empty.
Defined.

(** *** Deactivation, and many calls for one identity *)

(** X6: [deactivateGrain] removes whatever record is stored under the id and
    touches nothing else; for an id without a record it changes nothing; and
    activating a grain under an unused id and deactivating that id gives the
    silo back as it was. *)
Theorem deactivateGrain_undoes_activateGrain (g : IGrain) (s : Silo) :
  activatedGrains (deactivateGrain (id g) (activateGrain g s)) !! id g = None /\
  (forall i, i <> id g ->
     activatedGrains (deactivateGrain (id g) (activateGrain g s)) !! i
     = activatedGrains s !! i) /\
  (activatedGrains s !! id g = None ->
     deactivateGrain (id g) s = s /\
     deactivateGrain (id g) (activateGrain g s) = s).
Proof.
  destruct s as [m]. unfold deactivateGrain, activateGrain. simpl.
  split; [|split].
  - apply lookup_delete_eq.
  - intros i Hi. rewrite lookup_delete_ne by congruence.
    now apply lookup_insert_ne.
  - intros H. split; f_equal.
    + now apply delete_id.
    + rewrite delete_insert_eq. now apply delete_id.
Qed.

Lemma deactivateGrain_undoes_activateGrain_witness :
  deactivateGrain "user/42"
    (activateGrain {| ref := 1; id := "user/42" |} (silo emptyWorld))
  = silo emptyWorld.
Proof.
  destruct (deactivateGrain_undoes_activateGrain
              {| ref := 1; id := "user/42" |} (silo emptyWorld)) as (_ & _ & H).
  apply H. apply lookup_empty.
Defined.

(** [n] successive calls of [getGrain] with the same class and arguments:
    the proxies handed out, oldest first, and the world they leave. *)
Fixpoint getGrains (n : nat) (cls : GrainClass) (args : list string) (w : World)
  : list IGrain * World :=
  match n with
  | O => ([], w)
  | S n' =>
      let '(g, w1) := getGrain cls args w in
      let '(gs, w2) := getGrains n' cls args w1 in
      (g :: gs, w2)
  end.

Lemma getGrains_spec n cls args w :
  (getGrains n cls args w).1 =
    map (fun k => {| ref := S (heapNext w + 2 * k); id := cls args |}) (seq 0 n) /\
  heapNext (getGrains n cls args w).2 = heapNext w + 2 * n /\
  activatedGrains (silo (getGrains n cls args w).2) =
    match n with
    | O => activatedGrains (silo w)
    | S n' => <[cls args := {| ref := S (heapNext w + 2 * n'); id := cls args |}]>
                (activatedGrains (silo w))
    end.
Proof.
  revert w. induction n as [|n IH]; intros w.
  - simpl. repeat split. lia.
  - cbn [getGrains]. unfold getGrain. cbn [fst snd].
    set (w1 := {| heapNext := S (S (heapNext w));
                  silo := activateGrain (createGrainProxy
                            {| ref := heapNext w; id := cls args |} (S (heapNext w)))
                            (silo w) |}).
    destruct (IH w1) as (E1 & E2 & E3).
    destruct (getGrains n cls args w1) as [gs w2]. cbn [fst snd] in *.
    split; [|split].
    + rewrite E1. cbn [seq map]. f_equal.
      * unfold createGrainProxy. simpl. f_equal. lia.
      * rewrite <- seq_shift, map_map. apply map_ext. intros k.
        f_equal. subst w1. simpl. lia.
    + rewrite E2. subst w1. simpl. lia.
    + rewrite E3. subst w1. destruct n as [|n'].
      * simpl. unfold activateGrain, createGrainProxy. simpl. do 2 f_equal. lia.
      * simpl. unfold activateGrain, createGrainProxy. simpl.
        rewrite insert_insert_eq. do 2 f_equal. lia.
Qed.

(** X7: However often [getGrain] is called for one identity, the table gains
    at most the one entry for it, which holds the proxy of the last call;
    every call hands out a proxy of its own (no two calls return the same
    object). *)
Theorem getGrains_one_entry_many_proxies n cls args w :
  length (getGrains (S n) cls args w).1 = S n /\
  NoDup (getGrains (S n) cls args w).1 /\
  activatedGrains (silo (getGrains (S n) cls args w).2) !! cls args
    = last (getGrains (S n) cls args w).1 /\
  dom (activatedGrains (silo (getGrains (S n) cls args w).2))
    = {[cls args]} ∪ dom (activatedGrains (silo w)).
Proof.
  destruct (getGrains_spec (S n) cls args w) as (E1 & _ & E3).
  rewrite E1, E3. split; [|split; [|split]].
  - now rewrite length_map, length_seq.
  - apply NoDup_fmap_2_strong with (f := fun k => {| ref := S (heapNext w + 2 * k); id := cls args |}).
    + intros x y _ _ [= H]. lia.
    + apply NoDup_ListNoDup, seq_NoDup.
  - rewrite lookup_insert_eq. rewrite seq_S, map_app. simpl.
    now rewrite last_snoc.
  - apply dom_insert_L.
Qed.

End SiloModel.

(* ===================================================================== *)
(** ** lifecycle.ts: observers, stages, and the lifecycle subject *)
(* ===================================================================== *)

Module Lifecycle.

Definition Error := string.

Inductive Phase := Starting | Stopping.

(** What the lifecycle did: it notified observer [name], subscribed at
    [stage], and the promise it awaited was fulfilled ([None]) or rejected. *)
Inductive Event :=
| Notified (ph : Phase) (name : string) (stage : Z) (failure : option Error).

(** Modelled from the spec: the stage list of the missing subject class is
    kept ascending and without repetition (section 6: the stage numbers are a
    total order); this is the insertion. *)
Fixpoint insertStage (s : Z) (l : list Z) : list Z :=
  match l with
  | [] => [s]
  | x :: r =>
      if (s <? x)%Z then s :: x :: r
      else if (s =? x)%Z then x :: r
      else x :: insertStage s r
  end.

Section Subject.

(** What the observers of one activation act upon. *)
Context {W : Type}.

(** [ILifecycleObserver]: [onStart] and [onStop] return a promise; the
    observer changes the world and the promise is fulfilled or rejected. *)
Record ILifecycleObserver := mkObserver {
  onStart : W -> W * option Error;
  onStop : W -> W * option Error
}.

Record Subscription := mkSubscription {
  observerName : string;
  stage : Z;
  observer : ILifecycleObserver;
  handle : nat
}.

(** Modelled from the spec: the class that implements
    [ILifecycleObservable] (and [ILifecycleSubject]) is not among the
    sources; only the interfaces are.  Section 4.4: the subject keeps the
    subscriptions; [subscribe] returns an unsubscribe handle. *)
Record LifecycleSubject := mkSubject {
  subscriptions : list Subscription;
  nextHandle : nat
}.

(** Modelled from the spec: a subject of the missing class with no
    subscription yet. *)
Definition emptySubject : LifecycleSubject :=
  {| subscriptions := []; nextHandle := 0 |}.

(** Modelled from the spec: [subscribe(observerName, stage, observer)]
    of the missing subject class; the result is the new subject and the
    handle. *)
Definition subscribe (name : string) (st : Z) (o : ILifecycleObserver)
           (l : LifecycleSubject) : LifecycleSubject * nat :=
  ({| subscriptions :=
        subscriptions l ++
        [{| observerName := name; stage := st; observer := o;
            handle := nextHandle l |}];
      nextHandle := S (nextHandle l) |},
   nextHandle l).

(** Modelled from the spec: disposing the handle that [subscribe]
    returned, in the missing subject class. *)
Definition unsubscribe (h : nat) (l : LifecycleSubject) : LifecycleSubject :=
  {| subscriptions :=
       List.filter (fun x => negb (Nat.eqb (handle x) h)) (subscriptions l);
     nextHandle := nextHandle l |}.

(** The method of the observer that a phase calls. *)
Definition hook (ph : Phase) (o : ILifecycleObserver) : W -> W * option Error :=
  match ph with Starting => onStart o | Stopping => onStop o end.

(** Modelled from the spec: the stages that have a subscription, ascending;
    part of the missing subject class. *)
Definition stagesOf (subs : list Subscription) : list Z :=
  foldr insertStage [] (map stage subs).

(** Modelled from the spec: the observers subscribed at one stage, in
    subscription order; part of the missing subject class. *)
Definition atStage (s : Z) (subs : list Subscription) : list Subscription :=
  List.filter (fun x => (stage x =? s)%Z) subs.

(** Modelled from the spec: one stage of the missing subject class.
    Every observer of the stage is notified and awaited; rejections are
    collected. *)
Fixpoint notifyAll (ph : Phase) (obs : list Subscription) (w : W)
  : W * list Event * list Error :=
  match obs with
  | [] => (w, [], [])
  | x :: rest =>
      let '(w1, r) := hook ph (observer x) w in
      let '(w2, ev, errs) := notifyAll ph rest w1 in
      (w2, Notified ph (observerName x) (stage x) r :: ev,
       match r with Some e => e :: errs | None => errs end)
  end.

(** Modelled from the spec: the stage loop of the missing subject
    class.  Stages are taken in the order of [sts], each awaited fully
    before the next; with [abort] a stage with a rejection is the last
    one. *)
Fixpoint runStages (ph : Phase) (abort : bool) (sts : list Z)
         (subs : list Subscription) (w : W) : W * list Event * list Error :=
  match sts with
  | [] => (w, [], [])
  | s :: rest =>
      let '(w1, ev1, errs1) := notifyAll ph (atStage s subs) w in
      if abort && negb (Nat.eqb (length errs1) 0)
      then (w1, ev1, errs1)
      else
        let '(w2, ev2, errs2) := runStages ph abort rest subs w1 in
        (w2, ev1 ++ ev2, errs1 ++ errs2)
  end.

(** Modelled from the spec: [start()] of the missing subject class,
    section 4.4: ascending stage order, a failing Start observer aborts
    the startup and its failure is propagated. *)
Definition start (l : LifecycleSubject) (w : W) : W * list Event * option Error :=
  let '(w', ev, errs) :=
    runStages Starting true (stagesOf (subscriptions l)) (subscriptions l) w in
  (w', ev, head errs).

(** Modelled from the spec: [stop()] of the missing subject class,
    section 4.4: descending stage order, a failing Stop observer is
    recorded and teardown goes on; the recorded failures are reported as
    one error at the end. *)
Definition stop (l : LifecycleSubject) (w : W)
  : W * list Event * option (list Error) :=
  let '(w', ev, errs) :=
    runStages Stopping false (rev (stagesOf (subscriptions l))) (subscriptions l) w in
  (w', ev, match errs with [] => None | _ => Some errs end).

(** Modelled from the spec: "invokes observers in ... order, awaiting
    each", section 4.4; the subject class itself is missing.  The observers
    of [order] are called through [call] one after the other, each on the
    world the one before it left, and each is kept with what its promise
    gave. *)
Fixpoint awaitInTurn (call : ILifecycleObserver -> W -> W * option Error)
         (order : list Subscription) (w : W)
  : W * list (Subscription * option Error) :=
  match order with
  | [] => (w, [])
  | x :: rest =>
      let '(w1, r) := call (observer x) w in
      let '(w2, out) := awaitInTurn call rest w1 in
      (w2, (x, r) :: out)
  end.

(** The log entry of one awaited observer. *)
Definition report (ph : Phase) (o : Subscription * option Error) : Event :=
  Notified ph (observerName o.1) (stage o.1) o.2.

(** The rejections among the awaited observers, in order. *)
Definition rejections (out : list (Subscription * option Error)) : list Error :=
  omap snd out.

(** *** Facts about the stage list *)

Lemma elem_of_insertStage s l x : x ∈ insertStage s l <-> x = s \/ x ∈ l.
Proof.
  induction l as [|y r IH]; simpl.
  - rewrite list_elem_of_singleton, elem_of_nil. tauto.
  - destruct (Z.ltb_spec s y); [rewrite !elem_of_cons; tauto|].
    destruct (Z.eqb_spec s y) as [->|].
    + rewrite !elem_of_cons. tauto.
    + rewrite !elem_of_cons, IH. tauto.
Qed.

Lemma insertStage_sorted s l :
  StronglySorted Z.lt l -> StronglySorted Z.lt (insertStage s l).
Proof.
  induction l as [|y r IH]; intros H; simpl.
  - repeat constructor.
  - apply StronglySorted_cons in H as [Hy Hr].
    destruct (Z.ltb_spec s y).
    + apply StronglySorted_cons. split.
      * constructor; [assumption|].
        eapply Forall_impl; [exact Hy|]. intros z Hz; simpl in Hz. lia.
      * apply StronglySorted_cons. now split.
    + destruct (Z.eqb_spec s y).
      * apply StronglySorted_cons. now split.
      * apply StronglySorted_cons. split; [|now apply IH].
        apply Forall_forall. intros z Hz.
        apply elem_of_insertStage in Hz as [->|Hz]; [lia|].
        rewrite Forall_forall in Hy. now apply Hy.
Qed.

Lemma stagesOf_sorted subs : StronglySorted Z.lt (stagesOf subs).
Proof.
  unfold stagesOf. induction subs as [|x subs IH]; simpl.
  - constructor.
  - now apply insertStage_sorted.
Qed.

Lemma elem_of_stagesOf subs x : x ∈ subs -> stage x ∈ stagesOf subs.
Proof.
  unfold stagesOf. induction 1 as [x subs|x y subs _ IH]; simpl;
    apply elem_of_insertStage; auto.
Qed.

Lemma StronglySorted_rev_flip (R : relation Z) l :
  StronglySorted R l -> StronglySorted (flip R) (rev l).
Proof.
  induction 1 as [|x l _ IH Hx]; simpl; [constructor|].
  apply StronglySorted_app_2; [|assumption|repeat constructor].
  intros x1 x2 H1 H2. apply list_elem_of_singleton in H2 as ->.
  rewrite Forall_forall in Hx. apply Hx.
  now apply list_elem_of_In, in_rev, list_elem_of_In.
Qed.

(** *** Facts about one stage *)

Lemma atStage_stage s subs x : x ∈ atStage s subs <-> x ∈ subs /\ stage x = s.
Proof.
  unfold atStage. rewrite !list_elem_of_In, filter_In, Z.eqb_eq. tauto.
Qed.

(** *** The stage loop as one pass over the observers *)

Lemma awaitInTurn_app call o1 o2 w :
  awaitInTurn call (o1 ++ o2) w =
  ((awaitInTurn call o2 (awaitInTurn call o1 w).1).1,
   (awaitInTurn call o1 w).2 ++ (awaitInTurn call o2 (awaitInTurn call o1 w).1).2).
Proof.
  revert w. induction o1 as [|x o1 IH]; intros w; simpl.
  - now destruct (awaitInTurn call o2 w).
  - destruct (call (observer x) w) as [w1 r]. rewrite IH.
    destruct (awaitInTurn call o1 w1) as [w2 out1]. simpl.
    now destruct (awaitInTurn call o2 w2).
Qed.

Lemma awaitInTurn_order call order w : map fst (awaitInTurn call order w).2 = order.
Proof.
  revert w. induction order as [|x order IH]; intros w; simpl; [reflexivity|].
  destruct (call (observer x) w) as [w1 r]. specialize (IH w1).
  destruct (awaitInTurn call order w1) as [w2 out]. simpl in *. now rewrite IH.
Qed.

Lemma rejections_app out1 out2 :
  rejections (out1 ++ out2) = rejections out1 ++ rejections out2.
Proof. apply omap_app. Qed.

Lemma rejections_nil_inv out x e : rejections out = [] -> (x, Some e) ∉ out.
Proof.
  induction out as [|[y [e'|]] out IH]; simpl; intros H Hin.
  - now apply elem_of_nil in Hin.
  - discriminate.
  - apply elem_of_cons in Hin as [Hin|Hin]; [discriminate|]. now apply IH.
Qed.

Lemma notifyAll_await ph obs w :
  notifyAll ph obs w =
  ((awaitInTurn (hook ph) obs w).1,
   map (report ph) (awaitInTurn (hook ph) obs w).2,
   rejections (awaitInTurn (hook ph) obs w).2).
Proof.
  revert w. induction obs as [|x obs IH]; intros w; simpl; [reflexivity|].
  destruct (hook ph (observer x) w) as [w1 r]. rewrite IH.
  destruct (awaitInTurn (hook ph) obs w1) as [w2 out]. simpl.
  now destruct r.
Qed.

(** The observers of the stages [sts], stage after stage. *)
Definition byStage (sts : list Z) (subs : list Subscription) : list Subscription :=
  concat (map (fun s => atStage s subs) sts).

Lemma byStage_app sts1 sts2 subs :
  byStage (sts1 ++ sts2) subs = byStage sts1 subs ++ byStage sts2 subs.
Proof. unfold byStage. now rewrite map_app, concat_app. Qed.

Lemma elem_of_byStage sts subs x :
  x ∈ byStage sts subs -> x ∈ subs /\ stage x ∈ sts.
Proof.
  unfold byStage. rewrite list_elem_of_In, in_concat.
  intros (l & Hl & Hx). apply in_map_iff in Hl as (s0 & <- & Hs).
  apply list_elem_of_In, atStage_stage in Hx as [Hx <-].
  split; [assumption|now apply list_elem_of_In].
Qed.

Lemma runStages_all ph sts subs w :
  runStages ph false sts subs w =
  ((awaitInTurn (hook ph) (byStage sts subs) w).1,
   map (report ph) (awaitInTurn (hook ph) (byStage sts subs) w).2,
   rejections (awaitInTurn (hook ph) (byStage sts subs) w).2).
Proof.
  revert w. induction sts as [|s rest IH]; intros w; [reflexivity|].
  change (byStage (s :: rest) subs) with (atStage s subs ++ byStage rest subs).
  cbn [runStages]. rewrite notifyAll_await, awaitInTurn_app. cbn [andb].
  rewrite IH. cbn [fst snd]. now rewrite map_app, rejections_app.
Qed.

Lemma runStages_abort ph sts subs w :
  exists done rest,
    sts = done ++ rest /\
    runStages ph true sts subs w =
      ((awaitInTurn (hook ph) (byStage done subs) w).1,
       map (report ph) (awaitInTurn (hook ph) (byStage done subs) w).2,
       rejections (awaitInTurn (hook ph) (byStage done subs) w).2) /\
    (rejections (awaitInTurn (hook ph) (byStage done subs) w).2 = [] -> rest = []) /\
    (forall x e,
       (x, Some e) ∈ (awaitInTurn (hook ph) (byStage done subs) w).2 ->
       exists before, done = before ++ [stage x]).
Proof.
  revert w. induction sts as [|s sts IH]; intros w.
  - exists [], []. repeat split. intros x e H. now apply elem_of_nil in H.
  - cbn [runStages]. rewrite notifyAll_await. cbn [andb].
    destruct (rejections (awaitInTurn (hook ph) (atStage s subs) w).2)
      as [|e1 errs1] eqn:R1.
    + destruct (IH (awaitInTurn (hook ph) (atStage s subs) w).1)
        as (done & rest & -> & E & Hnil & Hlast).
      exists (s :: done), rest. split; [reflexivity|].
      change (byStage (s :: done) subs) with (atStage s subs ++ byStage done subs).
      rewrite awaitInTurn_app. cbn [fst snd length Nat.eqb negb].
      rewrite E. cbn [fst snd]. rewrite map_app, rejections_app, R1.
      split; [reflexivity|]. split; [exact Hnil|].
      intros x e Hin. apply elem_of_app in Hin as [Hin|Hin].
      * now destruct (rejections_nil_inv _ x e R1).
      * destruct (Hlast x e Hin) as [before ->]. now exists (s :: before).
    + exists [s], sts. split; [reflexivity|].
      change (byStage [s] subs) with (atStage s subs ++ []). rewrite app_nil_r.
      rewrite R1. cbn [length Nat.eqb negb].
      split; [reflexivity|]. split; [discriminate|].
      intros x e Hin. exists [].
      assert (Hx : x ∈ atStage s subs).
      { rewrite <- (awaitInTurn_order (hook ph) (atStage s subs) w).
        apply list_elem_of_In, in_map_iff. exists (x, Some e).
        split; [reflexivity|now apply list_elem_of_In]. }
      apply atStage_stage in Hx as [_ ->]. reflexivity.
Qed.

(** *** The pass visits every observer once, in stage order *)

Lemma filter_nothing {A : Type} (l : list A) : List.filter (fun _ => false) l = [].
Proof. induction l; simpl; auto. Qed.

Lemma filter_everything {A : Type} (f : A -> bool) (l : list A) :
  (forall x, x ∈ l -> f x = true) -> List.filter f l = l.
Proof.
  induction l as [|x l IH]; intros H; simpl; [reflexivity|].
  rewrite (H x) by apply list_elem_of_here.
  rewrite IH; [reflexivity|]. intros y Hy. apply H. now apply list_elem_of_further.
Qed.

Lemma filter_apart {A : Type} (f g : A -> bool) (l : list A) :
  (forall x, f x = true -> g x = false) ->
  List.filter f l ++ List.filter g l ≡ₚ List.filter (fun x => f x || g x) l.
Proof.
  intros H. induction l as [|x l IH]; simpl; [reflexivity|].
  destruct (f x) eqn:F; simpl.
  - rewrite (H x F). now constructor.
  - destruct (g x); [|exact IH].
    rewrite <- Permutation_middle. now constructor.
Qed.

Lemma byStage_filter sts subs :
  NoDup sts ->
  byStage sts subs ≡ₚ List.filter (fun x => existsb (Z.eqb (stage x)) sts) subs.
Proof.
  induction sts as [|s sts IH]; intros Hnd.
  - simpl. now rewrite filter_nothing.
  - apply NoDup_cons in Hnd as [Hs Hnd].
    change (byStage (s :: sts) subs) with (atStage s subs ++ byStage sts subs).
    rewrite (IH Hnd). unfold atStage. cbn [existsb].
    apply filter_apart. intros x Hx. apply Z.eqb_eq in Hx.
    apply not_true_is_false. intros Hex. apply existsb_exists in Hex as (s' & Hin & He).
    apply Z.eqb_eq in He. apply Hs. rewrite <- Hx, He. now apply list_elem_of_In.
Qed.

Lemma StronglySorted_lt_NoDup (l : list Z) : StronglySorted Z.lt l -> NoDup l.
Proof.
  induction 1 as [|x l _ IH Hx]; constructor; [|assumption].
  intros Hin. rewrite Forall_forall in Hx. specialize (Hx _ Hin). lia.
Qed.

Lemma StronglySorted_gt_NoDup (l : list Z) : StronglySorted (flip Z.lt) l -> NoDup l.
Proof.
  induction 1 as [|x l _ IH Hx]; constructor; [|assumption].
  intros Hin. rewrite Forall_forall in Hx. specialize (Hx _ Hin). unfold flip in Hx. lia.
Qed.

Lemma byStage_visits_all sts subs :
  NoDup sts -> (forall x, x ∈ subs -> stage x ∈ sts) -> byStage sts subs ≡ₚ subs.
Proof.
  intros Hnd Hall. rewrite (byStage_filter _ _ Hnd).
  rewrite filter_everything; [reflexivity|].
  intros x Hx. apply existsb_exists. exists (stage x).
  split; [apply list_elem_of_In, Hall, Hx|apply Z.eqb_refl].
Qed.

Lemma all_equal_sorted (R' : relation Z) s (l : list Z) :
  Reflexive R' -> Forall (fun z => z = s) l -> StronglySorted R' l.
Proof.
  intros Hrefl. induction 1 as [|z l Hz Hl IH]; constructor; [assumption|].
  subst z. eapply Forall_impl; [exact Hl|]. intros z ->. apply Hrefl.
Qed.

Lemma byStage_sorted (R R' : relation Z) sts subs :
  Reflexive R' -> (forall a b, R a b -> R' a b) ->
  StronglySorted R sts -> StronglySorted R' (map stage (byStage sts subs)).
Proof.
  intros Hrefl Hsub. induction 1 as [|s sts _ IH Hs]; [constructor|].
  change (byStage (s :: sts) subs) with (atStage s subs ++ byStage sts subs).
  rewrite map_app. apply StronglySorted_app_2; [| |exact IH].
  - intros a b Ha Hb.
    apply list_elem_of_In, in_map_iff in Ha as (x & <- & Hx).
    apply list_elem_of_In, in_map_iff in Hb as (y & <- & Hy).
    apply list_elem_of_In, atStage_stage in Hx as [_ ->].
    apply list_elem_of_In, elem_of_byStage in Hy as [_ Hy].
    rewrite Forall_forall in Hs. apply Hsub, Hs, Hy.
  - apply (all_equal_sorted R' s); [exact Hrefl|].
    apply Forall_forall. intros z Hz.
    apply list_elem_of_In, in_map_iff in Hz as (y & <- & Hy).
    now apply list_elem_of_In, atStage_stage in Hy as [_ ?].
Qed.

(** C4: [start()] calls [onStart] of the observers one after the other in
    ascending stage order, each on the world the one before it left.  It
    finishes the stage it is in, so the observers it has called when it
    returns are those of the stages up to some stage and the ones it skipped
    all belong to later stages; it skips none unless an observer failed,
    every failure lies in the last stage it ran, and what it reports is the
    first failure (none when nobody failed).  [stop()] calls [onStop] of
    every subscribed observer exactly once in descending stage order,
    whether or not earlier ones failed, and reports all the failures
    together, in order, as one error (none when nobody failed). *)
Theorem lifecycle_start_ascending_stop_descending
        (l : LifecycleSubject) (w : W) :
  let started := start l w in
  let stopped := stop l w in
  (exists ran skipped out,
     ran ++ skipped ≡ₚ subscriptions l /\
     StronglySorted Z.le (map stage (ran ++ skipped)) /\
     awaitInTurn onStart ran w = (started.1.1, out) /\
     started.1.2 = map (report Starting) out /\
     started.2 = head (rejections out) /\
     (rejections out = [] -> skipped = []) /\
     (forall x e,
        (x, Some e) ∈ out ->
        Forall (fun y => (stage y <= stage x)%Z) ran /\
        Forall (fun y => (stage x < stage y)%Z) skipped)) /\
  (exists order out,
     order ≡ₚ subscriptions l /\
     StronglySorted Z.ge (map stage order) /\
     awaitInTurn onStop order w = (stopped.1.1, out) /\
     stopped.1.2 = map (report Stopping) out /\
     stopped.2 = match rejections out with [] => None | errs => Some errs end).
Proof.
  intros started stopped. subst started stopped. unfold start, stop.
  set (subs := subscriptions l).
  pose proof (stagesOf_sorted subs) as Hasc.
  pose proof (StronglySorted_rev_flip Z.lt _ Hasc) as Hdesc.
  assert (Hcover : forall x, x ∈ subs -> stage x ∈ stagesOf subs)
    by apply elem_of_stagesOf.
  split.
  - destruct (runStages_abort Starting (stagesOf subs) subs w)
      as (done & rest & Hsplit & E & Hnil & Hlast).
    rewrite E. cbn [fst snd].
    change (awaitInTurn (hook Starting)) with (awaitInTurn onStart) in *.
    exists (byStage done subs), (byStage rest subs),
           (awaitInTurn onStart (byStage done subs) w).2.
    rewrite <- byStage_app, <- Hsplit.
    split; [apply byStage_visits_all;
            [now apply StronglySorted_lt_NoDup|exact Hcover]|].
    split; [apply (byStage_sorted Z.lt Z.le);
            [exact Z.le_refl|exact Z.lt_le_incl|exact Hasc]|].
    split; [now destruct (awaitInTurn onStart (byStage done subs) w)|].
    split; [reflexivity|]. split; [reflexivity|].
    split; [intros H; now rewrite (Hnil H)|].
    intros x e Hin. destruct (Hlast x e Hin) as [before ->].
    rewrite Hsplit in Hasc. split; apply Forall_forall; intros y Hy.
    + apply elem_of_byStage in Hy as [_ Hy].
      apply StronglySorted_app_1_l in Hasc.
      apply elem_of_app in Hy as [Hy|Hy].
      * pose proof (StronglySorted_app_1_elem_of Z.lt _ _ (stage y) (stage x) Hasc Hy)
          as Hlt.
        assert (Hx : stage x ∈ [stage x]) by apply list_elem_of_here.
        specialize (Hlt Hx). lia.
      * apply list_elem_of_singleton in Hy. lia.
    + apply elem_of_byStage in Hy as [_ Hy].
      apply (StronglySorted_app_1_elem_of Z.lt _ _ (stage x) (stage y) Hasc);
        [|exact Hy].
      apply elem_of_app. right. apply list_elem_of_here.
  - rewrite runStages_all. cbn [fst snd].
    change (awaitInTurn (hook Stopping)) with (awaitInTurn onStop).
    exists (byStage (rev (stagesOf subs)) subs),
           (awaitInTurn onStop (byStage (rev (stagesOf subs)) subs) w).2.
    split; [apply byStage_visits_all|].
    + now apply StronglySorted_gt_NoDup.
    + intros x Hx. apply list_elem_of_In, in_rev. rewrite rev_involutive.
      apply list_elem_of_In, Hcover, Hx.
    + split; [apply (byStage_sorted (flip Z.lt) Z.ge);
              [intros z; lia|unfold flip; intros a b; lia|exact Hdesc]|].
      split; [now destruct (awaitInTurn onStop _ w)|].
      split; [reflexivity|].
      now destruct (rejections (awaitInTurn onStop _ w).2).
Qed.

End Subject.

(** *** A small activation: two state slots at stage 1000, timers at 2000 *)

(** An observer that counts its notifications in the world and fails where
    it is told to. *)
Definition counting (name : string) (failStart failStop : bool)
  : @ILifecycleObserver nat :=
  {| onStart := fun n => (S n, if failStart then Some (name ++ ": start failed")%string else None);
     onStop := fun n => (S n, if failStop then Some (name ++ ": stop failed")%string else None) |}.

Definition bootSubject (failStart : bool) : @LifecycleSubject nat :=
  let l0 := emptySubject in
  let l1 := (subscribe "timers" 2000 (counting "timers" false true) l0).1 in
  let l2 := (subscribe "profile" 1000 (counting "profile" failStart true) l1).1 in
  (subscribe "cart" 1000 (counting "cart" false false) l2).1.

Example start_runs_stages_upwards :
  start (bootSubject false) 0 =
  (3, [ Notified Starting "profile" 1000 None;
        Notified Starting "cart" 1000 None;
        Notified Starting "timers" 2000 None ], None).
Proof. reflexivity. Qed.

Example start_stops_at_failing_stage :
  start (bootSubject true) 0 =
  (2, [ Notified Starting "profile" 1000 (Some "profile: start failed"%string);
        Notified Starting "cart" 1000 None ],
   Some "profile: start failed"%string).
Proof. reflexivity. Qed.

Example stop_runs_stages_downwards_and_collects :
  stop (bootSubject false) 0 =
  (3, [ Notified Stopping "timers" 2000 (Some "timers: stop failed"%string);
        Notified Stopping "profile" 1000 (Some "profile: stop failed"%string);
        Notified Stopping "cart" 1000 None ],
   Some ["timers: stop failed"; "profile: stop failed"]%string).
Proof. reflexivity. Qed.

(** A start in which "profile" fails at stage 1000: "cart", of the same
    stage, is still started, "timers" at 2000 is skipped; and a stop in
    which two observers fail and all three are called. *)
Lemma lifecycle_start_ascending_stop_descending_witness :
  (exists ran skipped out,
     ran ++ skipped ≡ₚ subscriptions (bootSubject true) /\
     awaitInTurn onStart ran 0 = (2, out) /\
     map (report Starting) out =
       [ Notified Starting "profile" 1000 (Some "profile: start failed"%string);
         Notified Starting "cart" 1000 None ] /\
     Forall (fun y => (1000 < stage y)%Z) skipped) /\
  (exists order out,
     order ≡ₚ subscriptions (bootSubject false) /\
     awaitInTurn onStop order 0 = (3, out) /\
     rejections out = ["timers: stop failed"; "profile: stop failed"]%string).
Proof.
  split.
  - destruct (lifecycle_start_ascending_stop_descending (bootSubject true) 0)
      as [(ran & skipped & out & P & _ & A & E & _ & _ & F) _].
    rewrite start_stops_at_failing_stage in A, E. cbn [fst snd] in A, E.
    exists ran, skipped, out. split; [exact P|]. split; [exact A|].
    split; [now rewrite <- E|].
    destruct out as [|[x r] out']; [discriminate|].
    injection E as _ Hs Hr _. symmetry in Hr. cbn [fst snd] in Hs, Hr. subst r.
    rewrite Hs. exact (proj2 (F x _ (list_elem_of_here _ _))).
  - destruct (lifecycle_start_ascending_stop_descending (bootSubject false) 0)
      as [_ (order & out & P & _ & A & _ & R)].
    rewrite stop_runs_stages_downwards_and_collects in A, R. cbn [fst snd] in A, R.
    exists order, out. split; [exact P|]. split; [exact A|].
    destruct (rejections out) as [|e errs]; [discriminate|].
    injection R as <- <-. reflexivity.
Defined.

End Lifecycle.


(* ===================================================================== *)
(** ** grain.ts, storage.ts: grain state and the storage contract *)
(* ===================================================================== *)

Module Storage.

Inductive StorageError := ConflictError.

Section Provider.

(** [TState], and the value a record holds when nothing is stored. *)
Context {TState : Type}.
Variable defaultState : TState.

(** Modelled from the spec: the etag that the missing provider gives a
    write.  The etag of a record is its [version], a number ([IGrainState],
    grain.ts); the provider counts it up by one. *)
Definition nextEtag (e : Z) : Z := (e + 1)%Z.

(** [IGrainState<TState>] of grain.ts; [version] is the etag. *)
Record IGrainState := mkGrainState {
  version : Z;
  state : TState;
  recordExists : bool
}.

(** Modelled from the spec: what the missing provider keeps for a slot,
    section 6: the value, absent once cleared, and the etag. *)
Record Stored := mkStored {
  value : option TState;
  etag : Z
}.

(** A state slot: [(stateName, grainId)]. *)
Definition Slot : Type := string * string.

(** Modelled from the spec: the storage provider behind [IGrainStorage] is a
    collaborator that the sources only declare.  Section 6: the provider
    keeps, per slot, a value and an etag. *)
Definition Store : Type := gmap Slot Stored.

(** Modelled from the spec: the etag the missing provider holds for a slot;
    a slot never written has etag 0. *)
Definition currentEtag (st : Store) (k : Slot) : Z :=
  match st !! k with
  | Some r => etag r
  | None => 0%Z
  end.

(** Modelled from the spec: [readState(stateName, identity) ->
    { value, etag, exists }] of the missing provider. *)
Definition readState (k : Slot) (st : Store) : IGrainState :=
  match st !! k with
  | Some {| value := Some v; etag := e |} =>
      {| version := e; state := v; recordExists := true |}
  | Some {| value := None; etag := e |} =>
      {| version := e; state := defaultState; recordExists := false |}
  | None =>
      {| version := 0%Z; state := defaultState; recordExists := false |}
  end.

(** Modelled from the spec: [writeState(stateName, identity, value, etag)
    -> newEtag | ConflictError] of the missing provider. *)
Definition writeState (k : Slot) (v : TState) (e : Z) (st : Store)
  : (StorageError + Z) * Store :=
  if (currentEtag st k =? e)%Z
  then (inr (nextEtag e), <[k := {| value := Some v; etag := nextEtag e |}]> st)
  else (inl ConflictError, st).

(** Modelled from the spec: [clearState(stateName, identity, etag) ->
    success | ConflictError] of the missing provider. *)
Definition clearState (k : Slot) (e : Z) (st : Store)
  : (StorageError + unit) * Store :=
  if (currentEtag st k =? e)%Z
  then (inr tt, <[k := {| value := None; etag := e |}]> st)
  else (inl ConflictError, st).

(** Modelled from the spec: [PersistentStateBridge], which
    persistent_state.ts instantiates but no source defines.  Section 4.5: it
    is bound to one slot and holds the activation's copy of the record. *)
Record PersistentStateBridge := mkBridge {
  slot : Slot;
  grainState : IGrainState
}.

(** Modelled from the spec: the bridge's [readState()], section 4.5. *)
Definition bridgeReadState (b : PersistentStateBridge) (st : Store)
  : PersistentStateBridge :=
  {| slot := slot b; grainState := readState (slot b) st |}.

(** Modelled from the spec: the bridge's [writeState()], section 4.5: one
    round trip with the record's current etag, no retry. *)
Definition bridgeWriteState (b : PersistentStateBridge) (st : Store)
  : (StorageError + unit) * PersistentStateBridge * Store :=
  match writeState (slot b) (state (grainState b)) (version (grainState b)) st with
  | (inr e', st') =>
      (inr tt,
       {| slot := slot b;
          grainState := {| version := e'; state := state (grainState b);
                           recordExists := true |} |},
       st')
  | (inl err, _) => (inl err, b, st)
  end.

(** Modelled from the spec: the bridge's [clearState()], section 4.5. *)
Definition bridgeClearState (b : PersistentStateBridge) (st : Store)
  : (StorageError + unit) * PersistentStateBridge * Store :=
  match clearState (slot b) (version (grainState b)) st with
  | (inr _, st') =>
      (inr tt,
       {| slot := slot b;
          grainState := {| version := version (grainState b);
                           state := defaultState; recordExists := false |} |},
       st')
  | (inl err, _) => (inl err, b, st)
  end.

(** Modelled from the spec: the calls that reach the missing provider, from
    whichever activation or caller, one at a time (section 6). *)
Inductive Request :=
| Write (k : Slot) (v : TState) (e : Z)
| Clear (k : Slot) (e : Z).

Inductive Reply :=
| Written (newEtag : Z)
| Cleared
| Conflict.

Definition serve (r : Request) (st : Store) : Reply * Store :=
  match r with
  | Write k v e =>
      match writeState k v e st with
      | (inr e', st') => (Written e', st')
      | (inl ConflictError, st') => (Conflict, st')
      end
  | Clear k e =>
      match clearState k e st with
      | (inr _, st') => (Cleared, st')
      | (inl ConflictError, st') => (Conflict, st')
      end
  end.

Fixpoint serveAll (rs : list Request) (st : Store) : list Reply * Store :=
  match rs with
  | [] => ([], st)
  | r :: rs' =>
      let '(reply, st1) := serve r st in
      let '(replies, st2) := serveAll rs' st1 in
      (reply :: replies, st2)
  end.

(** The etags that the successful writes of slot [k] were answered with,
    in order. *)
Fixpoint issued (k : Slot) (rs : list Request) (st : Store) : list Z :=
  match rs with
  | [] => []
  | r :: rs' =>
      let '(reply, st1) := serve r st in
      match r, reply with
      | Write k' _ _, Written e' =>
          if bool_decide (k' = k) then e' :: issued k rs' st1 else issued k rs' st1
      | _, _ => issued k rs' st1
      end
  end.

(** *** Facts *)

Lemma currentEtag_insert k r (st : Store) : currentEtag (<[k := r]> st) k = etag r.
Proof. unfold currentEtag, Store in *. now rewrite lookup_insert_eq. Qed.

Lemma currentEtag_insert_ne k k' r (st : Store) :
  k' <> k -> currentEtag (<[k' := r]> st) k = currentEtag st k.
Proof. intros H. unfold currentEtag, Store in *. now rewrite lookup_insert_ne. Qed.

Lemma writeState_fresh k v (st : Store) :
  writeState k v (currentEtag st k) st =
  (inr (nextEtag (currentEtag st k)),
   <[k := {| value := Some v; etag := nextEtag (currentEtag st k) |}]> st).
Proof. unfold writeState. now rewrite Z.eqb_refl. Qed.

Lemma writeState_stale k v e (st : Store) :
  e <> currentEtag st k -> writeState k v e st = (inl ConflictError, st).
Proof.
  intros H. unfold writeState.
  destruct (Z.eqb_spec (currentEtag st k) e); [congruence|reflexivity].
Qed.

Lemma clearState_fresh k (st : Store) :
  clearState k (currentEtag st k) st =
  (inr tt, <[k := {| value := None; etag := currentEtag st k |}]> st).
Proof. unfold clearState. now rewrite Z.eqb_refl. Qed.

Lemma clearState_stale k e (st : Store) :
  e <> currentEtag st k -> clearState k e st = (inl ConflictError, st).
Proof.
  intros H. unfold clearState.
  destruct (Z.eqb_spec (currentEtag st k) e); [congruence|reflexivity].
Qed.

(** One request, seen from slot [k]: a successful write of [k] is answered
    with an etag above the old one, which becomes the etag of the slot;
    everything else leaves the etag of [k] alone. *)
Lemma serve_etag k r (st : Store) :
  (exists v e e',
     r = Write k v e /\ (serve r st).1 = Written e' /\
     (currentEtag st k < e')%Z /\ currentEtag (serve r st).2 k = e') \/
  ((forall v e e', r = Write k v e -> (serve r st).1 <> Written e') /\
   currentEtag (serve r st).2 k = currentEtag st k).
Proof.
  destruct r as [k' v e|k' e]; simpl.
  - destruct (Z.eq_dec e (currentEtag st k')) as [->|Hne].
    + rewrite writeState_fresh. simpl.
      destruct (decide (k' = k)) as [->|Hk].
      * left. exists v, (currentEtag st k), (nextEtag (currentEtag st k)).
        rewrite currentEtag_insert. simpl. unfold nextEtag. repeat split. lia.
      * right. split; [intros v0 e0 e' [= E _ _]; contradiction|].
        now apply currentEtag_insert_ne.
    + rewrite writeState_stale by exact Hne. simpl. right.
      split; [discriminate|reflexivity].
  - right. split; [discriminate|].
    destruct (Z.eq_dec e (currentEtag st k')) as [->|Hne].
    + rewrite clearState_fresh. simpl.
      destruct (decide (k' = k)) as [->|Hk].
      * now rewrite currentEtag_insert.
      * now apply currentEtag_insert_ne.
    + now rewrite clearState_stale by exact Hne.
Qed.

Lemma serveAll_etag_monotone k rs (st : Store) :
  (currentEtag st k <= currentEtag (serveAll rs st).2 k)%Z.
Proof.
  revert st. induction rs as [|r rs IH]; intros st; simpl; [lia|].
  pose proof (serve_etag k r st) as H.
  destruct (serve r st) as [reply st1]. specialize (IH st1).
  destruct (serveAll rs st1) as [replies st2]. simpl in *.
  destruct H as [(v & e & e' & _ & _ & Hlt & He)|[_ He]]; lia.
Qed.

Lemma last_cons_default (l : list Z) x d : List.last (x :: l) d = List.last l x.
Proof.
  revert x d. induction l as [|y l IH]; intros x d; [reflexivity|].
  change (List.last (x :: y :: l) d) with (List.last (y :: l) d).
  now rewrite (IH y d), (IH y x).
Qed.

Lemma issued_increasing k rs (st : Store) :
  StronglySorted Z.lt (currentEtag st k :: issued k rs st) /\
  currentEtag (serveAll rs st).2 k = List.last (issued k rs st) (currentEtag st k).
Proof.
  revert st. induction rs as [|r rs IH]; intros st; simpl.
  - split; [repeat constructor|reflexivity].
  - pose proof (serve_etag k r st) as H.
    destruct (serve r st) as [reply st1] eqn:E. destruct (IH st1) as [IH1 IH2].
    destruct (serveAll rs st1) as [replies st2]. simpl in *.
    destruct H as [(v & e & e' & -> & -> & Hlt & He)|[Hno He]].
    + rewrite bool_decide_eq_true_2 by reflexivity. rewrite He in *. split.
      * apply StronglySorted_cons in IH1 as [IH1 IH1'].
        apply StronglySorted_cons. split; [|now apply StronglySorted_cons].
        constructor; [exact Hlt|].
        eapply Forall_impl; [exact IH1|]. simpl. intros z Hz. lia.
      * rewrite IH2. symmetry. apply last_cons_default.
    + assert (I : match r, reply with
                  | Write k' _ _, Written e' =>
                      if bool_decide (k' = k) then e' :: issued k rs st1
                      else issued k rs st1
                  | _, _ => issued k rs st1
                  end = issued k rs st1).
      { destruct r as [k' v e|k' e]; [|reflexivity].
        destruct reply as [e'| |]; try reflexivity.
        case_bool_decide as Hk; [|reflexivity].
        subst k'. now destruct (Hno v e e' eq_refl). }
      rewrite I, <- He. split; assumption.
Qed.

(** C2: a write that presents the current etag succeeds, is answered with
    a strictly larger etag, and that etag and the value are what the slot
    then holds, the other slots being untouched; a write succeeds in no other
    case.  A write or clear that presents any other etag is answered with
    [ConflictError] and the store is exactly as before.  Over any sequence
    of requests the etags given to the successful writes of a slot increase
    strictly, starting above the etag the slot had, and the slot's etag is
    the last of them; so once a write has succeeded, the etag it presented
    is stale for good: whatever requests follow, a write or clear presenting
    it conflicts and changes nothing.  The bridge presents its record's
    version, takes the larger one on success, and hands a conflict on
    without retrying. *)
Theorem write_increases_etag_and_stale_etag_conflicts
        (k : Slot) (v : TState) (e : Z) (st : Store) (b : PersistentStateBridge)
        (rs : list Request) :
  (* one write *)
  (exists e',
     writeState k v (currentEtag st k) st
       = (inr e', <[k := {| value := Some v; etag := e' |}]> st) /\
     (currentEtag st k < e')%Z) /\
  (forall e' st',
     writeState k v e st = (inr e', st') ->
     e = currentEtag st k /\
     (currentEtag st k < e')%Z /\ currentEtag st' k = e' /\
     readState k st' = {| version := e'; state := v; recordExists := true |} /\
     forall k', k' <> k -> st' !! k' = st !! k') /\
  (* a stale etag *)
  (e <> currentEtag st k ->
     writeState k v e st = (inl ConflictError, st) /\
     clearState k e st = (inl ConflictError, st)) /\
  (* any sequence of requests *)
  StronglySorted Z.lt (currentEtag st k :: issued k rs st) /\
  currentEtag (serveAll rs st).2 k = List.last (issued k rs st) (currentEtag st k) /\
  (forall e' st' v2,
     writeState k v e st = (inr e', st') ->
     writeState k v2 e (serveAll rs st').2 = (inl ConflictError, (serveAll rs st').2) /\
     clearState k e (serveAll rs st').2 = (inl ConflictError, (serveAll rs st').2)) /\
  (* the bridge *)
  (version (grainState b) = currentEtag st (slot b) ->
   exists b' st',
     bridgeWriteState b st = (inr tt, b', st') /\
     (version (grainState b) < version (grainState b'))%Z /\
     currentEtag st' (slot b) = version (grainState b') /\
     readState (slot b) st' = grainState b') /\
  (version (grainState b) <> currentEtag st (slot b) ->
     bridgeWriteState b st = (inl ConflictError, b, st) /\
     bridgeClearState b st = (inl ConflictError, b, st)).
Proof.
  assert (W : forall e' st',
             writeState k v e st = (inr e', st') ->
             e = currentEtag st k /\ e' = nextEtag e /\
             st' = <[k := {| value := Some v; etag := nextEtag e |}]> st).
  { intros e' st' H. unfold writeState in H.
    destruct (Z.eqb_spec (currentEtag st k) e); [|discriminate].
    injection H as <- <-. auto. }
  split; [|split; [|split; [|split; [|split; [|split; [|split]]]]]].
  - exists (nextEtag (currentEtag st k)). split; [apply writeState_fresh|].
    unfold nextEtag. lia.
  - intros e' st' H. destruct (W _ _ H) as (-> & -> & ->).
    split; [reflexivity|]. split; [unfold nextEtag; lia|].
    split; [apply currentEtag_insert|]. split.
    + unfold readState, Store in *. now rewrite lookup_insert_eq.
    + intros k' Hk'. unfold Store in *. now rewrite lookup_insert_ne.
  - intros H. split; [now apply writeState_stale|now apply clearState_stale].
  - apply issued_increasing.
  - apply issued_increasing.
  - intros e' st' v2 H. destruct (W _ _ H) as (-> & -> & ->).
    set (st1 := <[k := {| value := Some v; etag := nextEtag (currentEtag st k) |}]> st).
    pose proof (serveAll_etag_monotone k rs st1) as M.
    unfold st1 in M at 1. rewrite currentEtag_insert in M. cbn [etag] in M.
    unfold nextEtag in M.
    split; [apply writeState_stale|apply clearState_stale]; lia.
  - intros H. unfold bridgeWriteState. rewrite H, writeState_fresh.
    eexists _, _. split; [reflexivity|]. simpl.
    split; [unfold nextEtag; lia|]. split; [apply currentEtag_insert|].
    unfold readState, Store in *. now rewrite lookup_insert_eq.
  - intros H. unfold bridgeWriteState, bridgeClearState.
    rewrite writeState_stale, clearState_stale by exact H. auto.
Qed.

End Provider.

(** *** The profile slot of user 42 *)

Definition profileSlot : Slot := ("profile"%string, "user/42"%string).

(** A store in which the profile of user 42 was written once. *)
Definition profileStore : @Store string :=
  (writeState profileSlot "Ada"%string 0 ∅).2.

(** The round trip of section 8: write at etag 0, read it back with the new
    etag, clear with that etag, read again. *)
Example write_read_clear_read :
  let '(r1, st1) := writeState profileSlot "Ada"%string 0 ∅ in
  let '(r2, st2) := clearState profileSlot 1 st1 in
  r1 = inr 1%Z /\
  readState "" profileSlot st1
    = {| version := 1; state := "Ada"%string; recordExists := true |} /\
  r2 = inr tt /\
  recordExists (readState "" profileSlot st2) = false.
Proof. repeat split. Qed.

(** Two activations read the profile at etag 1 and both write: the first
    write wins, the second conflicts, also after a clear in between. *)
Lemma write_increases_etag_and_stale_etag_conflicts_witness :
  (writeState profileSlot "Grace"%string 1 profileStore).1 = inr 2%Z /\
  writeState profileSlot "Grace"%string 0 profileStore
    = (inl ConflictError, profileStore) /\
  clearState profileSlot 0 profileStore = (inl ConflictError, profileStore) /\
  (let st' := (writeState profileSlot "Grace"%string 1 profileStore).2 in
   let later := (serveAll [Clear profileSlot 2; Write ("cart", "user/42") "tea" 0]
                          st').2 in
   writeState profileSlot "Edsger"%string 1 later = (inl ConflictError, later)).
Proof.
  pose proof (write_increases_etag_and_stale_etag_conflicts
                ""%string profileSlot "Grace"%string 0 profileStore
                {| slot := profileSlot;
                   grainState := {| version := 0; state := ""%string;
                                    recordExists := false |} |} [])
    as (_ & _ & Hstale & _).
  pose proof (write_increases_etag_and_stale_etag_conflicts
                ""%string profileSlot "Grace"%string 1 profileStore
                {| slot := profileSlot;
                   grainState := {| version := 0; state := ""%string;
                                    recordExists := false |} |}
                [Clear profileSlot 2; Write ("cart", "user/42") "tea" 0]%string)
    as (_ & _ & _ & _ & _ & Hlost & _).
  split; [reflexivity|].
  destruct Hstale as [H1 H2]; [vm_compute; discriminate|].
  split; [exact H1|]. split; [exact H2|].
  intros st' later.
  exact (proj1 (Hlost 2%Z st' "Edsger"%string eq_refl)).
Defined.

End Storage.


(* ===================================================================== *)
(** ** grain.ts, persistent_state.ts (GrainRuntime), grain_context.ts:
       delaying deactivation *)
(* ===================================================================== *)

Module Collection.

Inductive ActivationState := Activating | Active | Deactivating | Invalid.

(** [ICollectibleGrainContext] of grain_context.ts, with the fields of the
    activation that section 3 of the spec lists.  Times are milliseconds;
    [keepAliveUntil = None] is "no override". *)
Record ICollectibleGrainContext := mkContext {
  grainId : string;
  status : ActivationState;
  queued : nat;
  lastActive : Z;
  collectionAgeLimit : Z;
  keepAliveUntil : option Z
}.

(** Modelled from the spec: [ICollectibleGrainContext.delayDeactivation]
    is declared in grain_context.ts and implemented nowhere.  Section 4.3:
    keep-alive-until becomes now + duration, whatever it was; a non-positive
    duration clears it. *)
Definition delayDeactivation (now timeSpan : Z) (c : ICollectibleGrainContext)
  : ICollectibleGrainContext :=
  {| grainId := grainId c; status := status c; queued := queued c;
     lastActive := lastActive c; collectionAgeLimit := collectionAgeLimit c;
     keepAliveUntil := if (0 <? timeSpan)%Z then Some (now + timeSpan)%Z else None |}.

(** Modelled from the spec: the idleness part of the test that the
    collection sweep applies to an activation (section 4.3): Active, empty
    turn queue, idle for longer than the limit.  The sweep itself is not in
    the sources. *)
Definition idleBeyondLimit (now : Z) (c : ICollectibleGrainContext) : bool :=
  match status c with Active => true | _ => false end
  && Nat.eqb (queued c) 0
  && (collectionAgeLimit c <? now - lastActive c)%Z.

(** Modelled from the spec: collectible is idle beyond the limit and past
    keep-alive-until (section 4.3); the sweep is not in the sources. *)
Definition collectible (now : Z) (c : ICollectibleGrainContext) : bool :=
  idleBeyondLimit now c
  && match keepAliveUntil c with
     | Some t => (t <? now)%Z
     | None => true
     end.

(** [Grain]: the two fields that [delayDeactivation] reads. *)
Record Grain := mkGrain {
  grainContext : option ICollectibleGrainContext;
  runtime : bool   (* [this.runtime] is set *)
}.

Inductive Outcome :=
| Returned (g : Grain) (current : option ICollectibleGrainContext)
| Thrown (message : string).

(** [GrainRuntime.checkRuntimeContext(context)] *)
Definition checkRuntimeContext (context : option ICollectibleGrainContext)
  : option string :=
  match context with
  | None => Some "Activation access violation. A non-activation thread attempted to access activation services."%string
  | Some _ => None
  end.

(** [GrainRuntime.delayDeactivation(grainContext, timeSpan)]: the check,
    then the context's own method.  [now] is the clock at the call; the
    result is the message thrown, or the context as the call leaves it. *)
Definition GrainRuntime_delayDeactivation
           (now : Z) (grainContext : option ICollectibleGrainContext) (timeSpan : Z)
  : string + option ICollectibleGrainContext :=
  match checkRuntimeContext grainContext with
  | Some message => inl message
  | None => inr (option_map (delayDeactivation now timeSpan) grainContext)
  end.

(** [Grain.delayDeactivation(timeSpan)].  [current] is
    [RuntimeContext.current].  The context handed to the runtime is
    [this.grainContext || RuntimeContext.current], and it is that object
    which the call changes. *)
Definition Grain_delayDeactivation (now : Z) (timeSpan : Z) (g : Grain)
           (current : option ICollectibleGrainContext) : Outcome :=
  (* this.ensureRuntime() *)
  if negb (runtime g)
  then Thrown "Grain was created outside of the Orleans creation process and no runtime was specified."
  else
    let own := match grainContext g with Some _ => true | None => false end in
    let selected := if own then grainContext g else current in
    match GrainRuntime_delayDeactivation now selected timeSpan with
    | inl message => Thrown message
    | inr updated =>
        if own
        then Returned {| grainContext := updated; runtime := runtime g |} current
        else Returned g updated
    end.

(** *** Facts *)

Lemma delayDeactivation_overwrites now1 d1 now2 d2 c :
  delayDeactivation now2 d2 (delayDeactivation now1 d1 c) = delayDeactivation now2 d2 c.
Proof. reflexivity. Qed.

(** C6: with a runtime and a context, [delayDeactivation] returns; a
    positive duration sets keep-alive-until to now + duration whatever the
    earlier value was, so a second call replaces the first (the durations do
    not add up) and the same call repeated at the same clock reading changes
    nothing more; a non-positive duration removes the override, after which
    the activation is collectible exactly when the ordinary idleness test
    says so. *)
Theorem delayDeactivation_last_write_wins
        (now : Z) (d : Z) (g : Grain) (c : ICollectibleGrainContext)
        (current : option ICollectibleGrainContext) :
  runtime g = true ->
  grainContext g = Some c ->
  let c' := delayDeactivation now d c in
  Grain_delayDeactivation now d g current
    = Returned {| grainContext := Some c'; runtime := true |} current /\
  ((0 < d)%Z -> keepAliveUntil c' = Some (now + d)%Z) /\
  (forall now0 d0,
     delayDeactivation now d (delayDeactivation now0 d0 c) = c') /\
  delayDeactivation now d c' = c' /\
  ((d <= 0)%Z ->
     keepAliveUntil c' = None /\
     forall t, collectible t c' = idleBeyondLimit t c).
Proof.
  intros Hr Hc c'. repeat split.
  - unfold Grain_delayDeactivation, GrainRuntime_delayDeactivation.
    now rewrite Hr, Hc.
  - intros Hd. subst c'. simpl. now destruct (Z.ltb_spec 0 d); [|lia].
  - subst c'. simpl. now destruct (Z.ltb_spec 0 d); [lia|].
  - intros t. subst c'. unfold collectible. simpl.
    destruct (Z.ltb_spec 0 d); [lia|]. apply andb_true_r.
Qed.

Definition cartContext : ICollectibleGrainContext :=
  {| grainId := "cart/7"; status := Active; queued := 0;
     lastActive := 1000; collectionAgeLimit := 100;
     keepAliveUntil := Some 99999%Z |}.

Lemma delayDeactivation_last_write_wins_witness :
  let g := {| grainContext := Some cartContext; runtime := true |} in
  let c' := delayDeactivation 5000 250 cartContext in
  Grain_delayDeactivation 5000 250 g None
    = Returned {| grainContext := Some c'; runtime := true |} None /\
  keepAliveUntil c' = Some 5250%Z /\
  delayDeactivation 5000 250 c' = c' /\
  collectible 6000 (delayDeactivation 5000 0 cartContext) = true.
Proof.
  destruct (delayDeactivation_last_write_wins 5000 250
              {| grainContext := Some cartContext; runtime := true |}
              cartContext None eq_refl eq_refl) as (H1 & H2 & _ & H4 & _).
  destruct (delayDeactivation_last_write_wins 5000 0
              {| grainContext := Some cartContext; runtime := true |}
              cartContext None eq_refl eq_refl) as (_ & _ & _ & _ & H5).
  split; [exact H1|]. split; [apply H2; lia|]. split; [exact H4|].
  destruct H5 as [_ H5]; [lia|]. rewrite H5. reflexivity.
Defined.

(** *** The other runtime operations of [Grain], and their guards *)
















End Collection.


(* ===================================================================== *)
(** ** persistent_state.ts, service_provider.ts, GrainWithState:
       state slots and their place in the lifecycle *)
(* ===================================================================== *)

Module PersistentState.

Import Lifecycle.

(** A storage provider object, by identity. *)
Definition Provider := nat.

(** [storageName: string | None], where [None] is the constant of
    ts-results. *)
Inductive StorageName :=
| Named (s : string)
| NoName.

(** What the variable [storageProvider] of [create] can hold at run time. *)
Inductive Resolved :=
| Null                        (* null *)
| Instance (p : Provider)     (* an IGrainStorage *)
| OptionSome (p : Provider)   (* Some(service) of ts-results *)
| OptionNone.                 (* None of ts-results *)

(** Truthiness, as [c ? a : b] and [!x] test it: the empty string and
    [null] are falsy, every object is truthy, the [None] of ts-results
    included. *)
Definition nameTruthy (n : StorageName) : bool :=
  match n with
  | Named s => negb (String.eqb s "")
  | NoName => true
  end.

Definition truthy (r : Resolved) : bool :=
  match r with
  | Null => false
  | _ => true
  end.

(** [IPersistentStateConfiguration] *)
Record IPersistentStateConfiguration := mkConfiguration {
  stateName : string;
  storageName : StorageName
}.

(** [new IPersistentStateAttribute(stateName, storageName?)]:
    [this._storageName = storageName ?? None] *)
Definition IPersistentStateAttribute (name : string) (storage : option string)
  : IPersistentStateConfiguration :=
  {| stateName := name;
     storageName := match storage with Some s => Named s | None => NoName end |}.

(** [ServiceProvider].  [services] lists the registered instances, oldest
    first; [named] is the registry that a lookup by name consults. *)
Record ServiceProvider := mkServices {
  services : list Provider;
  named : gmap string Provider
}.

(** [getService<T>()]:
    [this.services.find((service) => service instanceof T)], then
    [Some(service)] or [None].  [T] is a type parameter and names nothing at
    run time: with nothing registered [find] never calls the test and the
    result is the [None] of ts-results; otherwise the test on the first
    instance throws a ReferenceError ([inl]). *)
Definition getService (sp : ServiceProvider) : string + Resolved :=
  match services sp with
  | [] => inr OptionNone
  | _ :: _ => inl "ReferenceError: T is not defined"%string
  end.

(** Modelled from the spec: [getServiceByName] is called by [create] and
    defined nowhere (service_provider.ts keeps an older one in a comment).
    It yields the provider registered under the name, [null] when there is
    none; a key that is no string equals no registered name. *)
Definition getServiceByName (sp : ServiceProvider) (name : StorageName) : Resolved :=
  match name with
  | Named s =>
      match named sp !! s with
      | Some p => Instance p
      | None => Null
      end
  | NoName => Null
  end.

(** "A storage provider can be resolved for the slot": under its configured
    name, or the default one when no name is configured. *)
Definition resolvable (sp : ServiceProvider) (config : IPersistentStateConfiguration)
  : Prop :=
  match storageName config with
  | Named s => is_Some (named sp !! s)
  | NoName => services sp <> []
  end.

Section WithState.

Context {TState : Type}.
Variable defaultState : TState.

(** [GrainLifecycleStage.SetupState]; the enumeration is not among the
    sources. *)
Variable SetupState : Z.

(** A bridge as [create] builds it, or as the runtime hands it out: its
    slot, the provider it was given, and the record it holds. *)
Record BoundBridge := mkBound {
  slot : Storage.Slot;
  provider : Resolved;
  record : @Storage.IGrainState TState
}.

(** What the lifecycle observers of one activation act upon: the grain's
    [storage] field, the records of the bridges injected into it, and the
    stores behind the providers. *)
Record World := mkWorld {
  storage : BoundBridge;
  injected : gmap Storage.Slot (@Storage.IGrainState TState);
  backing : gmap Provider (gmap Storage.Slot (@Storage.Stored TState))
}.

Definition emptyRecord : @Storage.IGrainState TState :=
  {| Storage.version := 0; Storage.state := defaultState;
     Storage.recordExists := false |}.

(** [storageProvider.readState(stateName, grainId, grainState)]: only an
    [IGrainStorage] has the method. *)
Definition providerReadState (r : Resolved) (k : Storage.Slot) (w : World)
  : Error + @Storage.IGrainState TState :=
  match r with
  | Instance p => inr (Storage.readState defaultState k (default ∅ (backing w !! p)))
  | _ => inl "TypeError: storageProvider.readState is not a function"%string
  end.

Record IGrainContext := mkGrainContext {
  grainId : string;
  activationServices : ServiceProvider;
  observableLifecycle : @LifecycleSubject World
}.

(** [IGrainRuntime.getStorage(grainContext)]; its declaration is commented
    out in persistent_state.ts, so it is whatever the runtime provides. *)
Record IGrainRuntime := mkRuntime {
  getStorage : option IGrainContext -> BoundBridge
}.

(** [GrainWithState]: the fields that do not change during activation. *)
Record GrainWithState := mkGrainWithState {
  constructorName : string;
  runtime : option IGrainRuntime;
  grainContext : option IGrainContext
}.

(** [GrainWithState.onSetupState()]:
    [this.storage = this.runtime!.getStorage(this.grainContext!);
     return this.readState();] *)
Definition onSetupState (g : GrainWithState) (w : World) : World * option Error :=
  match runtime g with
  | None =>
      (w, Some "TypeError: Cannot read properties of null (reading 'getStorage')"%string)
  | Some rt =>
      let st := getStorage rt (grainContext g) in
      match providerReadState (provider st) (slot st) w with
      | inr r =>
          ({| storage := {| slot := slot st; provider := provider st; record := r |};
              injected := injected w; backing := backing w |}, None)
      | inl err =>
          ({| storage := st; injected := injected w; backing := backing w |}, Some err)
      end
  end.

Definition noStop (w : World) : World * option Error := (w, None).

(** [GrainWithState.participate(lifecycle)]:
    [lifecycle.subscribe(this.constructor.name, GrainLifecycleStage.SetupState,
                         this.onSetupState.bind(this))].
    The bound function is what the subject calls when the stage starts. *)
Definition participate (g : GrainWithState) (l : @LifecycleSubject World)
  : @LifecycleSubject World :=
  (subscribe (constructorName g) SetupState
             {| onStart := onSetupState g; onStop := noStop |} l).1.

(** Modelled from the spec: the Start hook of [PersistentStateBridge], a
    class that [create] instantiates and no source defines.  Section 4.5:
    the hook performs [readState], populating the record. *)
Definition bridgeSetup (b : BoundBridge) (w : World) : World * option Error :=
  match providerReadState (provider b) (slot b) w with
  | inr r =>
      ({| storage := storage w; injected := <[slot b := r]> (injected w);
          backing := backing w |}, None)
  | inl err => (w, Some err)
  end.

(** Modelled from the spec: [PersistentStateBridge.participate], section
    4.5: the bridge takes part at the SetupState stage. *)
Definition bridgeParticipate (b : BoundBridge) (l : @LifecycleSubject World)
  : @LifecycleSubject World :=
  (subscribe (slot b).1 SetupState
             {| onStart := bridgeSetup b; onStop := noStop |} l).1.

Inductive CreateResult :=
| Thrown (message : string)
| Created (bridge : BoundBridge) (lifecycle : @LifecycleSubject World).

(** [PersistentStateFactory.create(context, config)] *)
Definition create (context : IGrainContext) (config : IPersistentStateConfiguration)
  : CreateResult :=
  let resolved :=
    if nameTruthy (storageName config)
    then inr (getServiceByName (activationServices context) (storageName config))
    else getService (activationServices context) in
  match resolved with
  | inl thrown => Thrown thrown
  | inr storageProvider =>
      if negb (truthy storageProvider)
      then Thrown ("Missing provider exception: " ++ grainId context)
      else
        let fullStateName := stateName config in
        let bridge :=
          {| slot := (fullStateName, grainId context);
             provider := storageProvider;
             record := emptyRecord |} in
        Created bridge (bridgeParticipate bridge (observableLifecycle context))
  end.

(** "Creating the bridge fails if and only if no storage provider can be
    resolved for the slot." *)
Definition create_throws_iff_unresolvable : Prop :=
  forall context config,
    (exists message, create context config = Thrown message) <->
    ~ resolvable (activationServices context) config.

(** *** Facts *)

Lemma create_named_throws_iff context name s :
  s <> ""%string ->
  (exists message,
     create context {| stateName := name; storageName := Named s |} = Thrown message)
  <-> named (activationServices context) !! s = None.
Proof.
  intros Hs. unfold create. simpl.
  destruct (String.eqb_spec s ""); [contradiction|]. simpl.
  destruct (named (activationServices context) !! s) as [p|]; simpl.
  - split; [intros [m H]; discriminate|discriminate].
  - split; [reflexivity|]. intros _. eexists. reflexivity.
Qed.

End WithState.

(** *** The profile slot of user 42 *)

Definition profileContext (sp : ServiceProvider) : @IGrainContext string :=
  {| grainId := "user/42"; activationServices := sp;
     observableLifecycle := emptySubject |}.

Definition nothingRegistered : ServiceProvider :=
  {| services := []; named := ∅ |}.

Definition onlyDefault : ServiceProvider :=
  {| services := [7]; named := ∅ |}.

Definition unnamedProfile : IPersistentStateConfiguration :=
  {| stateName := "profile"; storageName := Named "" |}.

(** C7 (the code against the claim): with no provider registered at all
    and an empty storage name, [create] does not throw: [getService] answers
    with the [None] of ts-results, an object, and [!storageProvider] is
    false; the bridge is built around that [None].  And for a slot declared
    with [new IPersistentStateAttribute("profile")], whose storage name is
    that same [None] object, the lookup goes by name and [create] throws
    although a default provider is registered. *)
Theorem create_misjudges_missing_provider :
  (~ resolvable nothingRegistered unnamedProfile /\
   exists b l,
     create "" 1000 (profileContext nothingRegistered) unnamedProfile = Created b l /\
     provider b = OptionNone) /\
  (resolvable onlyDefault (IPersistentStateAttribute "profile" None) /\
   create "" 1000 (profileContext onlyDefault) (IPersistentStateAttribute "profile" None)
     = Thrown "Missing provider exception: user/42").
Proof.
  split; split.
  - unfold resolvable. simpl. rewrite lookup_empty. now intros [p H].
  - eexists _, _. split; reflexivity.
  - unfold resolvable. simpl. discriminate.
  - reflexivity.
Qed.

Lemma create_throws_iff_unresolvable_fails :
  ~ create_throws_iff_unresolvable "" 1000.
Proof.
  intros H.
  destruct (H (profileContext onlyDefault) (IPersistentStateAttribute "profile" None))
    as [H1 _].
  apply H1; [eexists; reflexivity|].
  unfold resolvable. simpl. discriminate.
Qed.

Definition quoteStorage : @BoundBridge string :=
  {| slot := ("state"%string, "user/42"%string); provider := Instance 7;
     record := emptyRecord "" |}.

Definition quoteGrain : @GrainWithState string :=
  {| constructorName := "QuoteGrain";
     runtime := Some {| getStorage := fun _ => quoteStorage |};
     grainContext := Some (profileContext onlyDefault) |}.

(** Provider 7 holds "carpe diem" for the grain's slot. *)
Definition quoteWorld : @World string :=
  {| storage := quoteStorage; injected := ∅;
     backing := {[ 7 := {[ ("state"%string, "user/42"%string) :=
                            {| Storage.value := Some "carpe diem"%string;
                               Storage.etag := 3 |} ]} ]} |}.

(** *** A grain with state as its constructor leaves it *)

(** [new GrainWithState(storage)]: the constructor calls [super()] without
    arguments, so [grainContext] and [runtime] keep their initial [null]
    (the [storage] argument becomes the [storage] field, which lives in the
    world). *)
Definition newGrainWithState {TState : Type} (name : string) : @GrainWithState TState :=
  {| constructorName := name; runtime := None; grainContext := None |}.

(** C5 (the code against the claim): the grain "QuoteGrain" as
    [new GrainWithState(storage)] leaves it, in a world where provider 7
    holds "carpe diem" at version 3 for its slot.  [participate] does
    subscribe the hook under the class name at the SetupState stage, but the
    hook throws on [this.runtime!], before [getStorage] and [readState]: the
    world is as before and the grain's record is still the empty one, not
    what the storage holds.  On a grain that differs only in having a
    runtime the same hook reads the stored record. *)
Theorem setup_state_hook_throws_before_reading :
  let g := newGrainWithState "QuoteGrain" in
  subscriptions (participate "" 1000 g emptySubject) =
    [ {| observerName := "QuoteGrain"; stage := 1000;
         observer := {| onStart := onSetupState "" g; onStop := noStop |};
         handle := 0 |} ] /\
  onSetupState "" g quoteWorld =
    (quoteWorld,
     Some "TypeError: Cannot read properties of null (reading 'getStorage')"%string) /\
  Storage.readState "" (slot (storage quoteWorld)) (default ∅ (backing quoteWorld !! 7)) =
    {| Storage.version := 3; Storage.state := "carpe diem"%string;
       Storage.recordExists := true |} /\
  record (storage (onSetupState "" g quoteWorld).1) =
    {| Storage.version := 0; Storage.state := ""%string;
       Storage.recordExists := false |} /\
  (onSetupState "" quoteGrain quoteWorld).2 = None /\
  record (storage (onSetupState "" quoteGrain quoteWorld).1) =
    {| Storage.version := 3; Storage.state := "carpe diem"%string;
       Storage.recordExists := true |}.
Proof. repeat split. Qed.

(** X10: A grain with state that has only been constructed has no runtime, so
    the hook that [participate] subscribes for it at the SetupState stage
    fails with a TypeError in every world and reads nothing: the world,
    and with it the grain's storage record, is left as it was. *)
Theorem constructed_grain_cannot_read_its_state
        {TState : Type} (defaultState : TState) (SetupState : Z) (name : string)
        (l : @LifecycleSubject (@World TState)) (w : @World TState) :
  exists x,
    last (subscriptions (participate defaultState SetupState (newGrainWithState name) l))
      = Some x /\
    observerName x = name /\ stage x = SetupState /\
    onStart (observer x) w =
      (w, Some "TypeError: Cannot read properties of null (reading 'getStorage')"%string).
Proof.
  eexists. split; [apply last_snoc|]. simpl. auto.
Qed.

End PersistentState.


(* ===================================================================== *)
(** ** stream_provider.ts: the in-memory stream provider *)
(* ===================================================================== *)

Module StreamModel.

(** A subscriber callback [(event) => void], by the identity of the
    function object. *)
Definition Callback := nat.

(** [Set.prototype.add]: a value already in the set keeps its place. *)
Definition setAdd (cb : Callback) (l : list Callback) : list Callback :=
  if existsb (Nat.eqb cb) l then l else l ++ [cb].

(** [Set.prototype.delete] *)
Definition setDelete (cb : Callback) (l : list Callback) : list Callback :=
  List.filter (fun x => negb (Nat.eqb x cb)) l.

(** [InMemoryStream]: its two public fields and the set of subscribers, in
    insertion order (the order in which [Set.prototype.forEach] visits). *)
Record InMemoryStream := mkStream {
  streamId : string;
  namespace : string;
  subscribers : list Callback
}.

(** [InMemoryStreamProvider]: [streams: Map<string, InMemoryStream>].  A
    stream object is only ever reached through the map entry that holds it,
    so producers and consumers are named by that key. *)
Record InMemoryStreamProvider := mkProvider {
  streams : gmap string InMemoryStream
}.

Definition newProvider : InMemoryStreamProvider := {| streams := ∅ |}.

(** [getStreamKey(streamId, namespace)]: [`${namespace}-${streamId}`] *)
Definition getStreamKey (streamId namespace : string) : string :=
  String.append namespace (String.append "-" streamId).

(** [createProducer(streamId, namespace)]; the result is the stream, as
    [stream.createProducer()] returns [this]. *)
Definition createProducer (sid ns : string) (p : InMemoryStreamProvider)
  : string * InMemoryStreamProvider :=
  let streamKey := getStreamKey sid ns in
  match streams p !! streamKey with
  | Some _ => (streamKey, p)
  | None =>
      (streamKey,
       {| streams := <[streamKey := {| streamId := sid; namespace := ns;
                                       subscribers := [] |}]> (streams p) |})
  end.

(** [createConsumer(streamId, namespace)]; again the stream itself. *)
Definition createConsumer (sid ns : string) (p : InMemoryStreamProvider)
  : string * InMemoryStreamProvider :=
  let streamKey := getStreamKey sid ns in
  match streams p !! streamKey with
  | Some _ => (streamKey, p)
  | None =>
      (streamKey,
       {| streams := <[streamKey := {| streamId := sid; namespace := ns;
                                       subscribers := [] |}]> (streams p) |})
  end.

(** [stream.subscribe(callback)] on the stream held under [h]. *)
Definition subscribe (h : string) (cb : Callback) (p : InMemoryStreamProvider)
  : InMemoryStreamProvider :=
  {| streams :=
       alter (fun s => {| streamId := streamId s; namespace := namespace s;
                          subscribers := setAdd cb (subscribers s) |})
             h (streams p) |}.

(** [stream.unsubscribe(callback)] *)
Definition unsubscribe (h : string) (cb : Callback) (p : InMemoryStreamProvider)
  : InMemoryStreamProvider :=
  {| streams :=
       alter (fun s => {| streamId := streamId s; namespace := namespace s;
                          subscribers := setDelete cb (subscribers s) |})
             h (streams p) |}.

(** [stream.produce(event)]: the calls it makes, in order, to callbacks
    that leave the stream's subscribers alone. *)
Definition produce {E : Type} (h : string) (event : E) (p : InMemoryStreamProvider)
  : list (Callback * E) :=
  match streams p !! h with
  | Some s => map (fun cb => (cb, event)) (subscribers s)
  | None => []
  end.

Inductive SubCall :=
| Subscribe (cb : Callback)
| Unsubscribe (cb : Callback).

(** A sequence of [subscribe] and [unsubscribe] calls on one stream. *)
Fixpoint applyCalls (h : string) (cs : list SubCall) (p : InMemoryStreamProvider)
  : InMemoryStreamProvider :=
  match cs with
  | [] => p
  | Subscribe cb :: cs' => applyCalls h cs' (subscribe h cb p)
  | Unsubscribe cb :: cs' => applyCalls h cs' (unsubscribe h cb p)
  end.

(** Whether the latest call that concerns [cb] subscribed it; [rcs] lists
    the calls latest first. *)
Fixpoint lastSubscribed (cb : Callback) (rcs : list SubCall) : bool :=
  match rcs with
  | [] => false
  | Subscribe c :: r => if Nat.eqb c cb then true else lastSubscribed cb r
  | Unsubscribe c :: r => if Nat.eqb c cb then false else lastSubscribed cb r
  end.

Fixpoint noDash (s : string) : bool :=
  match s with
  | EmptyString => true
  | String c s' => negb (Ascii.eqb c "-"%char) && noDash s'
  end.

(** *** Facts *)

Lemma setAdd_elem cb x l : x ∈ setAdd cb l <-> x = cb \/ x ∈ l.
Proof.
  unfold setAdd. destruct (existsb (Nat.eqb cb) l) eqn:E.
  - apply existsb_exists in E as (y & Hy & Heq). apply Nat.eqb_eq in Heq. subst y.
    split; [tauto|]. intros [->|H]; [now apply list_elem_of_In|assumption].
  - rewrite elem_of_app, list_elem_of_singleton. tauto.
Qed.

Lemma setAdd_NoDup cb l : NoDup l -> NoDup (setAdd cb l).
Proof.
  intros H. unfold setAdd. destruct (existsb (Nat.eqb cb) l) eqn:E; [assumption|].
  apply NoDup_app. split; [assumption|]. split; [|apply NoDup_singleton].
  intros x Hx Hx'. apply list_elem_of_singleton in Hx'. subst x.
  assert (existsb (Nat.eqb cb) l = true); [|congruence].
  apply existsb_exists. exists cb. split; [now apply list_elem_of_In|apply Nat.eqb_refl].
Qed.

Lemma setDelete_elem cb x l : x ∈ setDelete cb l <-> x <> cb /\ x ∈ l.
Proof.
  unfold setDelete. rewrite !list_elem_of_In, filter_In.
  destruct (Nat.eqb_spec x cb); simpl; split; try tauto; try easy.
Qed.

Lemma setDelete_NoDup cb l : NoDup l -> NoDup (setDelete cb l).
Proof.
  intros H. unfold setDelete. apply NoDup_ListNoDup, List.NoDup_filter.
  now apply NoDup_ListNoDup.
Qed.

Lemma applyCalls_app h cs1 cs2 p :
  applyCalls h (cs1 ++ cs2) p = applyCalls h cs2 (applyCalls h cs1 p).
Proof.
  revert p. induction cs1 as [|[cb|cb] cs1 IH]; intros p; simpl; auto.
Qed.

Lemma applyCalls_lookup h cs p s :
  streams p !! h = Some s ->
  exists subs,
    streams (applyCalls h cs p) !! h
      = Some {| streamId := streamId s; namespace := namespace s; subscribers := subs |}.
Proof.
  revert p s. induction cs as [|[cb|cb] cs IH]; intros p s H; simpl.
  - exists (subscribers s). now destruct s.
  - edestruct (IH (subscribe h cb p)) as [subs Hs].
    + unfold subscribe. simpl. rewrite lookup_alter_eq, H. reflexivity.
    + exists subs. exact Hs.
  - edestruct (IH (unsubscribe h cb p)) as [subs Hs].
    + unfold unsubscribe. simpl. rewrite lookup_alter_eq, H. reflexivity.
    + exists subs. exact Hs.
Qed.

Lemma applyCalls_subscribers h cs p s :
  streams p !! h = Some s -> subscribers s = [] ->
  exists subs,
    streams (applyCalls h cs p) !! h
      = Some {| streamId := streamId s; namespace := namespace s; subscribers := subs |} /\
    NoDup subs /\
    forall cb, cb ∈ subs <-> lastSubscribed cb (rev cs) = true.
Proof.
  intros Hs Hnil. induction cs as [|c cs IH] using rev_ind.
  - exists []. simpl. rewrite Hs. destruct s; simpl in *; subst.
    split; [reflexivity|]. split; [constructor|].
    intros cb. rewrite elem_of_nil. split; [tauto|discriminate].
  - destruct IH as (subs & E & Hnd & Hmem).
    rewrite applyCalls_app, rev_app_distr. simpl.
    destruct c as [cb|cb]; simpl.
    + exists (setAdd cb subs). split; [|split].
      * unfold subscribe. simpl. rewrite lookup_alter_eq, E. reflexivity.
      * now apply setAdd_NoDup.
      * intros x. rewrite setAdd_elem, Hmem.
        destruct (Nat.eqb_spec cb x); [subst; tauto|].
        split; [intros [->|H]; [congruence|assumption]|tauto].
    + exists (setDelete cb subs). split; [|split].
      * unfold unsubscribe. simpl. rewrite lookup_alter_eq, E. reflexivity.
      * now apply setDelete_NoDup.
      * intros x. rewrite setDelete_elem, Hmem.
        destruct (Nat.eqb_spec cb x); [subst; split; [tauto|discriminate]|].
        split; [tauto|]. intros H. split; [congruence|assumption].
Qed.

(** X11: A stream is created by the first [createProducer] or [createConsumer]
    that names it and never again: later calls of either kind return that
    same stream and leave the provider, and with it the stream's
    subscribers, exactly as they were; streams under other keys are not
    touched. *)
Theorem stream_is_created_once (sid ns : string) (p : InMemoryStreamProvider) :
  let h := (createProducer sid ns p).1 in
  let p1 := (createProducer sid ns p).2 in
  createConsumer sid ns p = createProducer sid ns p /\
  is_Some (streams p1 !! h) /\
  createProducer sid ns p1 = (h, p1) /\
  createConsumer sid ns p1 = (h, p1) /\
  (forall cs, createConsumer sid ns (applyCalls h cs p1) = (h, applyCalls h cs p1)) /\
  (forall k, k <> h -> streams p1 !! k = streams p !! k) /\
  (is_Some (streams p !! h) -> p1 = p).
Proof.
  intros h p1. subst h p1. unfold createProducer, createConsumer.
  destruct (streams p !! getStreamKey sid ns) as [s|] eqn:E; simpl.
  - rewrite E. repeat split; eauto.
    intros cs. destruct (applyCalls_lookup (getStreamKey sid ns) cs p s E) as [subs ->].
    reflexivity.
  - rewrite lookup_insert_eq. repeat split; eauto.
    + intros cs.
      edestruct (applyCalls_lookup (getStreamKey sid ns) cs
                   {| streams := <[getStreamKey sid ns :=
                                     {| streamId := sid; namespace := ns;
                                        subscribers := [] |}]> (streams p) |})
        as [subs ->]; [apply lookup_insert_eq|reflexivity].
    + intros k Hk. now apply lookup_insert_ne.
    + rewrite E. intros [x Hx]. discriminate.
Qed.

(** X12: On a newly created stream, after any sequence of [subscribe] and
    [unsubscribe] calls, [produce(event)] calls exactly the callbacks whose
    latest call was a [subscribe], each of them once, however often it was
    subscribed, and with that event. *)
Theorem produce_calls_each_subscriber_once
        {E : Type} (sid ns : string) (cs : list SubCall) (event : E)
        (p : InMemoryStreamProvider) :
  streams p !! getStreamKey sid ns = None ->
  let h := (createConsumer sid ns p).1 in
  let p1 := applyCalls h cs (createConsumer sid ns p).2 in
  NoDup (produce h event p1) /\
  forall cb e,
    (cb, e) ∈ produce h event p1 <-> e = event /\ lastSubscribed cb (rev cs) = true.
Proof.
  intros Hnone h p1. subst h p1. unfold createConsumer. rewrite Hnone. simpl.
  edestruct (applyCalls_subscribers (getStreamKey sid ns) cs
               {| streams := <[getStreamKey sid ns :=
                                 {| streamId := sid; namespace := ns;
                                    subscribers := [] |}]> (streams p) |})
    as (subs & Hs & Hnd & Hmem); [apply lookup_insert_eq|reflexivity|].
  unfold produce. rewrite Hs. simpl. split.
  - apply NoDup_fmap_2_strong with (f := fun cb => (cb, event)); [|assumption].
    now intros x y _ _ [= ->].
  - intros cb e. rewrite <- Hmem. split.
    + intros H. apply list_elem_of_In, in_map_iff in H as (x & [= -> ->] & Hx).
      split; [reflexivity|now apply list_elem_of_In].
    + intros [-> H]. apply list_elem_of_In, in_map_iff. exists cb.
      split; [reflexivity|now apply list_elem_of_In].
Qed.

Lemma produce_calls_each_subscriber_once_witness :
  let h := (createConsumer "orders" "sales" newProvider).1 in
  let p1 := applyCalls h [Subscribe 1; Subscribe 2; Subscribe 1; Unsubscribe 2]
                       (createConsumer "orders" "sales" newProvider).2 in
  NoDup (produce h "paid"%string p1) /\
  forall cb e,
    (cb, e) ∈ produce h "paid"%string p1 <->
    e = "paid"%string /\
    lastSubscribed cb (rev [Subscribe 1; Subscribe 2; Subscribe 1; Unsubscribe 2]) = true.
Proof.
  apply (produce_calls_each_subscriber_once "orders" "sales"
           [Subscribe 1; Subscribe 2; Subscribe 1; Unsubscribe 2]
           "paid"%string newProvider).
  apply lookup_empty.
Defined.

Lemma key_without_dash_splits n1 n2 i1 i2 :
  noDash n1 = true -> noDash n2 = true ->
  getStreamKey i1 n1 = getStreamKey i2 n2 ->
  n1 = n2 /\ i1 = i2.
Proof.
  unfold getStreamKey. revert n2.
  induction n1 as [|c1 r1 IH]; intros [|c2 r2] H1 H2 E; cbn in E, H1, H2.
  - injection E as E. now subst.
  - injection E as Ec _. subst c2. discriminate.
  - injection E as Ec _. subst c1. discriminate.
  - injection E as Ec E. subst c2.
    apply andb_prop in H1 as [_ H1]. apply andb_prop in H2 as [_ H2].
    destruct (IH r2 H1 H2 E) as [-> ->]. auto.
Qed.

(** X13: The key of a stream is the namespace, a dash, and the stream id, so
    two different (namespace, id) pairs can have one key when a namespace
    contains a dash: whoever asks second gets the stream of the first, with
    the first one's [streamId] and [namespace] and its subscribers.  When
    the namespaces contain no dash, equal keys mean equal pairs. *)
Theorem stream_key_confuses_dashed_names
        (i1 n1 i2 n2 : string) (p : InMemoryStreamProvider) :
  (getStreamKey i1 n1 = getStreamKey i2 n2 ->
   streams p !! getStreamKey i1 n1 = None ->
   let p1 := (createProducer i1 n1 p).2 in
   createConsumer i2 n2 p1 = (getStreamKey i1 n1, p1) /\
   streams p1 !! (createConsumer i2 n2 p1).1
     = Some {| streamId := i1; namespace := n1; subscribers := [] |}) /\
  (noDash n1 = true -> noDash n2 = true ->
   getStreamKey i1 n1 = getStreamKey i2 n2 -> n1 = n2 /\ i1 = i2).
Proof.
  split; [|apply key_without_dash_splits].
  intros Hk Hnone p1. subst p1. unfold createProducer, createConsumer.
  rewrite Hnone. simpl. rewrite <- Hk, lookup_insert_eq. simpl.
  split; [reflexivity|apply lookup_insert_eq].
Qed.

Lemma stream_key_confuses_dashed_names_witness :
  let p1 := (createProducer "b-c" "a" newProvider).2 in
  ("a"%string, "b-c"%string) <> ("a-b"%string, "c"%string) /\
  createConsumer "c" "a-b" p1 = ("a-b-c"%string, p1) /\
  streams p1 !! (createConsumer "c" "a-b" p1).1
    = Some {| streamId := "b-c"; namespace := "a"; subscribers := [] |}.
Proof.
  split; [discriminate|].
  destruct (stream_key_confuses_dashed_names "b-c" "a" "c" "a-b" newProvider)
    as [H _].
  apply (H eq_refl (lookup_empty _)).
Defined.

End StreamModel.


(* ===================================================================== *)
(** ** moleculer.ts: the todo service *)
(* ===================================================================== *)

Module TodoModel.

Record Todo := mkTodo {
  id : string;
  title : string;
  completed : bool
}.

(** The own properties of [this.todos], oldest first: the order in which
    [Object.values] lists keys that are not array indices. *)
Definition Todos : Type := list (string * Todo).

(** [this.todos[k]] for an own property. *)
Fixpoint getOwn (k : string) (l : Todos) : option Todo :=
  match l with
  | [] => None
  | (k', t) :: r => if String.eqb k' k then Some t else getOwn k r
  end.

(** [this.todos[k] = t]: an existing property keeps its place. *)
Fixpoint setOwn (k : string) (t : Todo) (l : Todos) : Todos :=
  match l with
  | [] => [(k, t)]
  | (k', t') :: r =>
      if String.eqb k' k then (k, t) :: r else (k', t') :: setOwn k t r
  end.

(** [delete this.todos[k]] *)
Definition deleteOwn (k : string) (l : Todos) : Todos :=
  List.filter (fun kv => negb (String.eqb kv.1 k)) l.

(** The names that every plain object inherits from [Object.prototype];
    [this.todos[k]] is truthy for them although no todo was stored. *)
Definition objectPrototypeNames : list string :=
  [ "constructor"; "hasOwnProperty"; "isPrototypeOf"; "propertyIsEnumerable";
    "toLocaleString"; "toString"; "valueOf"; "__proto__";
    "__defineGetter__"; "__defineSetter__"; "__lookupGetter__";
    "__lookupSetter__" ]%string.

Definition inheritedName (k : string) : bool :=
  existsb (String.eqb k) objectPrototypeNames.

Definition isDigit (c : ascii) : bool :=
  (48 <=? nat_of_ascii c)%nat && (nat_of_ascii c <=? 57)%nat.

Fixpoint allDigits (k : string) : bool :=
  match k with
  | EmptyString => true
  | String c r => isDigit c && allDigits r
  end.

(** What an id from [uuidv4()] is, as far as the object cares: no name
    inherited from [Object.prototype] (assigning to [__proto__] would not
    store a property) and no array index (which [Object.values] would list
    before the other keys). *)
Definition uuidKey (k : string) : bool :=
  negb (inheritedName k) && negb (allDigits k).

(** The service: its todos and what it emitted on the broker, oldest
    first. *)
Record TodoActor := mkTodoActor {
  todos : Todos;
  emitted : list (string * Todo)
}.

Definition newTodoActor : TodoActor := {| todos := []; emitted := [] |}.

Inductive Outcome :=
| Done (result : Todo) (a : TodoActor)
| Threw (message : string) (a : TodoActor)
| Inherited (a : TodoActor).
(** [Inherited]: the id named a member of [Object.prototype], so the
    not-found test passed on something that is no todo; what the action
    then does with it is outside this model. *)

(** [create(ctx)]; [uuid] is what [uuidv4()] returned. *)
Definition create (uuid : string) (newTitle : string) (a : TodoActor) : Outcome :=
  let todo := {| id := uuid; title := newTitle; completed := false |} in
  Done todo {| todos := setOwn uuid todo (todos a);
               emitted := emitted a ++ [("todo.created"%string, todo)] |}.

(** [update(ctx)] with [ctx.params = { id, title, completed }] *)
Definition update (i : string) (newTitle : string) (newCompleted : bool)
           (a : TodoActor) : Outcome :=
  match getOwn i (todos a) with
  | Some old =>
      (* { ...this.todos[id], title, completed } *)
      let updatedTodo := {| id := id old; title := newTitle;
                            completed := newCompleted |} in
      Done updatedTodo
           {| todos := setOwn i updatedTodo (todos a);
              emitted := emitted a ++ [("todo.updated"%string, updatedTodo)] |}
  | None =>
      if inheritedName i then Inherited a else Threw "Todo not found" a
  end.

(** [delete(ctx)] with [ctx.params = { id }] *)
Definition delete (i : string) (a : TodoActor) : Outcome :=
  match getOwn i (todos a) with
  | Some deletedTodo =>
      Done deletedTodo
           {| todos := deleteOwn i (todos a);
              emitted := emitted a ++ [("todo.deleted"%string, deletedTodo)] |}
  | None =>
      if inheritedName i then Inherited a else Threw "Todo not found" a
  end.

(** [list()]: [Object.values(this.todos)] *)
Definition listTodos (a : TodoActor) : list Todo := map snd (todos a).

Definition after (o : Outcome) : TodoActor :=
  match o with
  | Done _ a => a
  | Threw _ a => a
  | Inherited a => a
  end.

Inductive Action :=
| Create (uuid : string) (newTitle : string)
| Update (i : string) (newTitle : string) (newCompleted : bool)
| Delete (i : string).

Definition perform (c : Action) (a : TodoActor) : Outcome :=
  match c with
  | Create uuid t => create uuid t a
  | Update i t c => update i t c a
  | Delete i => delete i a
  end.

(** Creations store under an id as [uuidv4()] makes them; updates and
    deletions may ask for any id that is not a name inherited from
    [Object.prototype]. *)
Definition ordinary (c : Action) : bool :=
  match c with
  | Create uuid _ => uuidKey uuid
  | Update i _ _ => negb (inheritedName i)
  | Delete i => negb (inheritedName i)
  end.

(** A caller that goes on after an action threw. *)
Fixpoint performAll (cs : list Action) (a : TodoActor) : TodoActor :=
  match cs with
  | [] => a
  | c :: cs' => performAll cs' (after (perform c a))
  end.

(** Every todo is stored under its own id, and no id twice. *)
Definition keyed (l : Todos) : Prop :=
  NoDup (map fst l) /\ Forall (fun kv => id kv.2 = kv.1) l.

(** *** Facts *)

Lemma getOwn_None_keys k l : getOwn k l = None <-> k ∉ map fst l.
Proof.
  induction l as [|[k' t] r IH]; simpl.
  - split; [intros _; apply not_elem_of_nil|reflexivity].
  - rewrite not_elem_of_cons. destruct (String.eqb_spec k' k).
    + split; [discriminate|]. intros [H _]. congruence.
    + rewrite IH. split; [intros H; split; [congruence|assumption]|tauto].
Qed.

Lemma getOwn_Some_elem k t l : getOwn k l = Some t -> (k, t) ∈ l.
Proof.
  induction l as [|[k' t'] r IH]; simpl; [discriminate|].
  destruct (String.eqb_spec k' k).
  - intros [= ->]. subst. apply list_elem_of_here.
  - intros H. apply list_elem_of_further. now apply IH.
Qed.

Lemma setOwn_fresh k t l : getOwn k l = None -> setOwn k t l = l ++ [(k, t)].
Proof.
  induction l as [|[k' t'] r IH]; simpl; [reflexivity|].
  destruct (String.eqb_spec k' k); [discriminate|]. intros H. now rewrite IH.
Qed.

Lemma setOwn_last k t t' l :
  getOwn k l = None -> setOwn k t' (l ++ [(k, t)]) = l ++ [(k, t')].
Proof.
  induction l as [|[k0 t0] r IH]; simpl.
  - now rewrite String.eqb_refl.
  - destruct (String.eqb_spec k0 k); [discriminate|]. intros H. now rewrite IH.
Qed.

Lemma getOwn_last k t l : getOwn k l = None -> getOwn k (l ++ [(k, t)]) = Some t.
Proof.
  induction l as [|[k0 t0] r IH]; simpl.
  - now rewrite String.eqb_refl.
  - destruct (String.eqb_spec k0 k); [discriminate|]. exact IH.
Qed.

Lemma deleteOwn_last k t l : getOwn k l = None -> deleteOwn k (l ++ [(k, t)]) = l.
Proof.
  unfold deleteOwn. induction l as [|[k0 t0] r IH]; simpl.
  - now rewrite String.eqb_refl.
  - destruct (String.eqb_spec k0 k); [discriminate|]. simpl. intros H. now rewrite IH.
Qed.

Lemma keys_setOwn k t l x :
  x ∈ map fst (setOwn k t l) -> x = k \/ x ∈ map fst l.
Proof.
  induction l as [|[k' t'] r IH]; simpl.
  - rewrite list_elem_of_singleton. tauto.
  - destruct (String.eqb_spec k' k); simpl; rewrite !elem_of_cons.
    + tauto.
    + intros [->|H]; [tauto|]. destruct (IH H); tauto.
Qed.

Lemma keyed_setOwn k t l : id t = k -> keyed l -> keyed (setOwn k t l).
Proof.
  intros Hid [Hnd Hall]. induction l as [|[k' t'] r IH]; simpl.
  - split; [apply NoDup_singleton|]. repeat constructor. exact Hid.
  - simpl in Hnd. apply NoDup_cons in Hnd as [Hk' Hnd].
    apply Forall_cons in Hall as [Ht' Hall]. simpl in Ht'.
    destruct (String.eqb_spec k' k) as [Heq|Hne]; simpl.
    + rewrite Heq in Hk'. split; [apply NoDup_cons; split; assumption|].
      apply Forall_cons. split; assumption.
    + destruct (IH Hnd Hall) as [IH1 IH2]. split.
      * apply NoDup_cons. split; [|assumption].
        intros Hin. apply keys_setOwn in Hin as [Heq|Hin]; [exact (Hne Heq)|exact (Hk' Hin)].
      * apply Forall_cons. split; assumption.
Qed.

Lemma keyed_deleteOwn k l : keyed l -> keyed (deleteOwn k l).
Proof.
  intros [Hnd Hall]. unfold deleteOwn. induction l as [|[k' t'] r IH]; simpl.
  - split; constructor.
  - simpl in Hnd. apply NoDup_cons in Hnd as [Hk' Hnd].
    apply Forall_cons in Hall as [Ht' Hall].
    destruct (IH Hnd Hall) as [IH1 IH2].
    simpl in Ht', Hk'.
    destruct (String.eqb k' k); simpl; [split; assumption|].
    split; [|apply Forall_cons; split; assumption].
    apply NoDup_cons. split; [|assumption].
    intros Hin. apply Hk'.
    apply list_elem_of_In, in_map_iff in Hin as ([k0 t0] & Hk0 & Hin).
    apply filter_In in Hin as [Hin _].
    apply list_elem_of_In, in_map_iff. exists (k0, t0). split; assumption.
Qed.

Lemma keyed_perform c a : keyed (todos a) -> keyed (todos (after (perform c a))).
Proof.
  intros H. destruct c as [uuid t|i t c|i]; simpl.
  - now apply keyed_setOwn.
  - unfold update. destruct (getOwn i (todos a)) as [old|] eqn:E.
    + simpl. apply keyed_setOwn; [|assumption].
      destruct H as [_ Hall]. rewrite Forall_forall in Hall.
      exact (Hall _ (getOwn_Some_elem _ _ _ E)).
    + now destruct (inheritedName i).
  - unfold delete. destruct (getOwn i (todos a)) as [old|].
    + simpl. now apply keyed_deleteOwn.
    + now destruct (inheritedName i).
Qed.

(** X14: Whatever ordinary actions are performed on a new service, including
    ones that throw and creations that reuse an id, every todo stays stored
    under its own id and [list()] never shows two todos with the same id. *)
Theorem todos_stay_keyed_by_their_id (cs : list Action) :
  forallb ordinary cs = true ->
  keyed (todos (performAll cs newTodoActor)) /\
  NoDup (map id (listTodos (performAll cs newTodoActor))).
Proof.
  intros _.
  assert (H : forall a, keyed (todos a) -> keyed (todos (performAll cs a))).
  { induction cs as [|c cs IH]; intros a Ha; simpl; [assumption|].
    apply IH. now apply keyed_perform. }
  specialize (H newTodoActor (conj (NoDup_nil_2) (Forall_nil_2 _))).
  split; [assumption|]. destruct H as [Hnd Hall]. unfold listTodos.
  rewrite map_map.
  erewrite map_ext_in; [exact Hnd|].
  intros kv Hkv. rewrite Forall_forall in Hall. apply Hall. now apply list_elem_of_In.
Qed.

(** X15: For an id as [uuidv4()] makes them that is not stored: updating or
    deleting it throws 'Todo not found' and leaves the todos and
    the emitted events as they were; for a newly created todo, an update
    keeps its id and its place in the list and changes title and completion,
    a delete afterwards gives back the todos from before the creation, the
    three actions emit one event each carrying the todo they returned, and
    a second delete throws. *)
Theorem todo_life_cycle (u newTitle1 newTitle2 : string) (c2 : bool) (a : TodoActor) :
  getOwn u (todos a) = None ->
  uuidKey u = true ->
  let t1 := {| id := u; title := newTitle1; completed := false |} in
  let t2 := {| id := u; title := newTitle2; completed := c2 |} in
  let a1 := after (create u newTitle1 a) in
  let a2 := after (update u newTitle2 c2 a1) in
  let a3 := after (delete u a2) in
  update u newTitle2 c2 a = Threw "Todo not found" a /\
  delete u a = Threw "Todo not found" a /\
  create u newTitle1 a = Done t1 a1 /\ listTodos a1 = listTodos a ++ [t1] /\
  update u newTitle2 c2 a1 = Done t2 a2 /\ listTodos a2 = listTodos a ++ [t2] /\
  delete u a2 = Done t2 a3 /\ todos a3 = todos a /\
  emitted a3 = emitted a ++ [("todo.created"%string, t1);
                             ("todo.updated"%string, t2);
                             ("todo.deleted"%string, t2)] /\
  delete u a3 = Threw "Todo not found" a3.
Proof.
  intros Hfresh Hown t1 t2 a1 a2 a3.
  apply andb_prop in Hown as [Hown _]. apply negb_true_iff in Hown.
  assert (E1 : todos a1 = todos a ++ [(u, t1)]).
  { subst a1. simpl. now apply setOwn_fresh. }
  assert (U : update u newTitle2 c2 a1
              = Done t2 {| todos := todos a ++ [(u, t2)];
                           emitted := emitted a1 ++ [("todo.updated"%string, t2)] |}).
  { unfold update. rewrite E1, (getOwn_last u t1 _ Hfresh). simpl.
    rewrite <- (setOwn_last u t1 t2 _ Hfresh). reflexivity. }
  assert (E2 : todos a2 = todos a ++ [(u, t2)]) by (subst a2; now rewrite U).
  assert (D : delete u a2
              = Done t2 {| todos := todos a;
                           emitted := emitted a2 ++ [("todo.deleted"%string, t2)] |}).
  { unfold delete. rewrite E2, (getOwn_last u t2 _ Hfresh).
    now rewrite (deleteOwn_last u t2 _ Hfresh). }
  assert (E3 : todos a3 = todos a) by (subst a3; now rewrite D).
  repeat match goal with |- _ /\ _ => split end.
  - unfold update. now rewrite Hfresh, Hown.
  - unfold delete. now rewrite Hfresh, Hown.
  - reflexivity.
  - unfold listTodos. rewrite E1, map_app. reflexivity.
  - subst a2. rewrite U. reflexivity.
  - unfold listTodos. rewrite E2, map_app. reflexivity.
  - subst a3. rewrite D. reflexivity.
  - exact E3.
  - subst a3. rewrite D. simpl. subst a2. rewrite U. simpl. subst a1. simpl.
    now rewrite <- !app_assoc.
  - unfold delete. now rewrite E3, Hfresh, Hown.
Qed.

Lemma todos_stay_keyed_by_their_id_witness :
  let cs := [ Create "1b9d6bcd" "milk"; Create "9c4f2a10" "bread";
              Update "1b9d6bcd" "oat milk" true; Delete "0"; Create "1b9d6bcd" "tea";
              Delete "9c4f2a10" ]%string in
  map id (listTodos (performAll cs newTodoActor)) = ["1b9d6bcd"%string] /\
  NoDup (map id (listTodos (performAll cs newTodoActor))).
Proof.
  split; [reflexivity|].
  exact (proj2 (todos_stay_keyed_by_their_id
                  [ Create "1b9d6bcd" "milk"; Create "9c4f2a10" "bread";
                    Update "1b9d6bcd" "oat milk" true; Delete "0";
                    Create "1b9d6bcd" "tea"; Delete "9c4f2a10" ]%string eq_refl)).
Defined.

Lemma todo_life_cycle_witness :
  let u := "1b9d6bcd-bbfd-4b2d-9b5d-ab8dfbbd4bed"%string in
  let a1 := after (create u "milk" newTodoActor) in
  let a2 := after (update u "oat milk" true a1) in
  update u "oat milk" true newTodoActor = Threw "Todo not found" newTodoActor /\
  listTodos a2 = [ {| id := u; title := "oat milk"; completed := true |} ] /\
  todos (after (delete u a2)) = [].
Proof.
  destruct (todo_life_cycle "1b9d6bcd-bbfd-4b2d-9b5d-ab8dfbbd4bed" "milk" "oat milk"
              true newTodoActor eq_refl eq_refl)
    as (H1 & _ & _ & _ & _ & H6 & _ & H8 & _).
  auto.
Defined.

End TodoModel.
